(** * Emotion diary app: response parser and record store

    A shallow embedding of [app.py]: the response parser
    ([parse_feedback_response]), the CSV record store
    ([save_diary_to_csv], [load_diary_csv]) and the submit handler of
    [main], together with the parts of Python's [str], [re] and of pandas
    that these functions call. *)

From Stdlib Require Import NArith ZArith Lia Ascii String.
From stdpp Require Import base option list gmap strings.

Local Open Scope N_scope.

(* ===================================================================== *)
(** * Python strings *)
(* ===================================================================== *)

Module Py.

(** A Python [str] is a sequence of Unicode code points. *)
Abbreviation char := N.
Abbreviation str := (list N).

(** Source literals are written as UTF-8 text and decoded to code points. *)
Fixpoint utf8_decode (bs : list N) : str :=
  match bs with
  | [] => []
  | b :: r =>
      if b <? 0x80 then b :: utf8_decode r
      else if b <? 0xE0 then
        match r with
        | b1 :: r' => ((b - 0xC0) * 64 + (b1 - 0x80)) :: utf8_decode r'
        | _ => []
        end
      else if b <? 0xF0 then
        match r with
        | b1 :: b2 :: r' =>
            ((b - 0xE0) * 4096 + (b1 - 0x80) * 64 + (b2 - 0x80)) :: utf8_decode r'
        | _ => []
        end
      else
        match r with
        | b1 :: b2 :: b3 :: r' =>
            ((b - 0xF0) * 262144 + (b1 - 0x80) * 4096 + (b2 - 0x80) * 64 + (b3 - 0x80))
              :: utf8_decode r'
        | _ => []
        end
  end.

Definition lit (s : string) : str :=
  utf8_decode (map N_of_ascii (list_ascii_of_string s)).

(** [str.isspace] on one code point: the characters CPython lists in
    [_PyUnicode_IsWhitespace]. The same set is what [\s] matches in a
    [str] pattern. *)
Definition isspace (c : char) : bool :=
  ((0x09 <=? c) && (c <=? 0x0D)) || ((0x1C <=? c) && (c <=? 0x20))
  || (c =? 0x85) || (c =? 0xA0) || (c =? 0x1680)
  || ((0x2000 <=? c) && (c <=? 0x200A))
  || (c =? 0x2028) || (c =? 0x2029) || (c =? 0x202F) || (c =? 0x205F)
  || (c =? 0x3000).

Fixpoint lstrip (s : str) : str :=
  match s with
  | c :: s' => if isspace c then lstrip s' else s
  | [] => []
  end.

Definition rstrip (s : str) : str := rev (lstrip (rev s)).

(** [s.strip()] *)
Definition strip (s : str) : str := rstrip (lstrip s).

(** A string that does not start with a blank is its own [lstrip]. *)
Definition starts_clean (s : str) : Prop :=
  match s with c :: _ => isspace c = false | [] => True end.

(** The truth value of a string: [not s] holds for the empty string only. *)
Definition truthy (s : str) : bool :=
  match s with [] => false | _ => true end.

(** [a or b] on strings. *)
Definition or_else (a b : str) : str := if truthy a then a else b.

(** [needle in hay] *)
Fixpoint starts_with (needle hay : str) : bool :=
  match needle, hay with
  | [], _ => true
  | c :: n', d :: h' => (c =? d) && starts_with n' h'
  | _ :: _, [] => false
  end.

Fixpoint contains (needle hay : str) : bool :=
  starts_with needle hay ||
  match hay with
  | [] => false
  | _ :: h' => contains needle h'
  end.

End Py.

Import Py.

(* ===================================================================== *)
(** * The fragment of [re] used by the parser *)
(* ===================================================================== *)

Module Re.

(** Flags of [re.search]. *)
Record flags := { IGNORECASE : bool; DOTALL : bool }.

(** One-character items of a pattern. *)
Inductive atom :=
| Lit (c : char)   (* a literal character *)
| Space            (* \s *)
| Dot.             (* .  *)

(** Patterns. Repetition is only applied to one-character items, as in
    every pattern of the program ([\s*], [.*], [.*?]). *)
Inductive regex :=
| Empty
| Atom (a : atom)
| Star (a : atom)        (* a*  : greedy *)
| LazyStar (a : atom)    (* a*? : non-greedy *)
| Cat (r1 r2 : regex)
| Alt (r1 r2 : regex)
| Group (n : nat) (r : regex)
| Lookahead (r : regex)  (* (?=r) *)
| Dollar.                (* $ without MULTILINE *)

(** Case folding of the matcher, [sre_lower_unicode], on the code points
    whose lower case is an ASCII letter: the 26 capitals, U+0130 (capital
    I with dot) and U+212A (Kelvin sign). Every other code point is its
    own image here; its true lower case is never an ASCII letter, and
    ASCII letters are all it is compared with. *)
Definition is_ascii_upper (c : char) : bool := (0x41 <=? c) && (c <=? 0x5A).
Definition is_ascii_lower (c : char) : bool := (0x61 <=? c) && (c <=? 0x7A).

Definition sre_lower (c : char) : char :=
  if is_ascii_upper c then c + 32
  else if c =? 0x130 then 0x69
  else if c =? 0x212A then 0x6B
  else c.

(** [_ignorecase_fixes] of the compiler, for ASCII letters: dotless i
    (U+0131) is matched by [i], long s (U+017F) by [s]. *)
Definition ignorecase_fixes (lo c : char) : bool :=
  ((lo =? 0x69) && (c =? 0x131)) || ((lo =? 0x73) && (c =? 0x17F)).

(** A literal of a pattern against a character of the text. Pattern
    literals of the program are ASCII; an uncased literal is compared
    as it is. *)
Definition lit_matches (f : flags) (p c : char) : bool :=
  if IGNORECASE f && (is_ascii_upper p || is_ascii_lower p) then
    (sre_lower c =? sre_lower p) || ignorecase_fixes (sre_lower p) c
  else c =? p.

Definition atom_matches (f : flags) (a : atom) (c : char) : bool :=
  match a with
  | Lit p => lit_matches f p c
  | Space => isspace c
  | Dot => DOTALL f || negb (c =? 0x0A)
  end.

(** Captured groups of a match, by group number. *)
Definition captures : Type := gmap nat str.

(** The text consumed between a position [s] and a later position [s']
    (both given by what is left of the text). *)
Definition consumed (s s' : str) : str := take (length s - length s') s.

Section Matcher.
Variable f : flags.

(** Backtracking on a greedy repetition: the longest run first. *)
Fixpoint star_greedy {A} (a : atom) (s : str) (k : str -> option A) : option A :=
  match s with
  | c :: s' =>
      if atom_matches f a c then
        match star_greedy a s' k with
        | Some r => Some r
        | None => k s
        end
      else k s
  | [] => k s
  end.

(** Backtracking on a non-greedy repetition: the shortest run first. *)
Fixpoint star_lazy {A} (a : atom) (s : str) (k : str -> option A) : option A :=
  match k s with
  | Some r => Some r
  | None =>
      match s with
      | c :: s' => if atom_matches f a c then star_lazy a s' k else None
      | [] => None
      end
  end.

(** [$] matches at the end of the text and before a final newline. *)
Definition at_dollar (s : str) : bool :=
  match s with
  | [] => true
  | [c] => c =? 0x0A
  | _ => false
  end.

(** The matcher, in continuation-passing style: [k] is the rest of the
    pattern, called with what is left of the text and the groups so
    far; [None] makes the matcher backtrack. *)
Fixpoint match_re (r : regex) (s : str) (caps : captures)
    (k : str -> captures -> option captures) : option captures :=
  match r with
  | Empty => k s caps
  | Atom a =>
      match s with
      | c :: s' => if atom_matches f a c then k s' caps else None
      | [] => None
      end
  | Star a => star_greedy a s (fun s' => k s' caps)
  | LazyStar a => star_lazy a s (fun s' => k s' caps)
  | Cat r1 r2 => match_re r1 s caps (fun s' caps' => match_re r2 s' caps' k)
  | Alt r1 r2 =>
      match match_re r1 s caps k with
      | Some c => Some c
      | None => match_re r2 s caps k
      end
  | Group n r' =>
      match_re r' s caps (fun s' caps' => k s' (<[n := consumed s s']> caps'))
  | Lookahead r' =>
      match match_re r' s caps (fun _ caps' => Some caps') with
      | Some caps' => k s caps'
      | None => None
      end
  | Dollar => if at_dollar s then k s caps else None
  end.

(** A match starting exactly at the current position. *)
Definition match_here (r : regex) (s : str) : option captures :=
  match_re r s ∅ (fun _ caps => Some caps).

(** [re.search]: the match at the leftmost position that has one. *)
Fixpoint search (r : regex) (s : str) : option captures :=
  match match_here r s with
  | Some caps => Some caps
  | None =>
      match s with
      | [] => None
      | _ :: s' => search r s'
      end
  end.
End Matcher.

(** Patterns without capture groups. *)
Fixpoint group_free (r : regex) : bool :=
  match r with
  | Group _ _ => false
  | Cat r1 r2 | Alt r1 r2 => group_free r1 && group_free r2
  | Lookahead r' => group_free r'
  | _ => true
  end.

(** A run of literal characters. *)
Fixpoint lits (s : str) : regex :=
  match s with
  | [] => Empty
  | c :: s' => Cat (Atom (Lit c)) (lits s')
  end.

(** [match.group(n)] *)
Definition group (m : captures) (n : nat) : option str := m !! n.

End Re.

Import Re.

Declare Scope re_scope.
Delimit Scope re_scope with re.
Infix "⋅" := Cat (at level 41, right associativity) : re_scope.
Notation "'ws*'" := (Star Space) : re_scope.

(* ===================================================================== *)
(** * Response parser *)
(* ===================================================================== *)

Module Parser.

Local Open Scope re_scope.

Definition re_flags : flags := {| IGNORECASE := true; DOTALL := true |}.

(** The label parts of the three patterns. *)
Definition corrected_label : regex :=
  lits (lit "Corrected") ⋅ ws* ⋅ lits (lit "Diary") ⋅ ws* ⋅ lits (lit ":").
Definition feedback_label : regex :=
  lits (lit "Feedback") ⋅ ws* ⋅ lits (lit ":").
Definition summary_label : regex :=
  lits (lit "Korean") ⋅ ws* ⋅ lits (lit "Summary") ⋅ ws* ⋅ lits (lit ":").

(** r"Corrected\s*Diary\s*:\s*(.*?)(?=Feedback\s*:|Korean\s*Summary\s*:|$)" *)
Definition corrected_pattern : regex :=
  corrected_label ⋅ ws* ⋅ Group 1 (LazyStar Dot)
    ⋅ Lookahead (Alt feedback_label (Alt summary_label Dollar)).

(** r"Feedback\s*:\s*(.*?)(?=Korean\s*Summary\s*:|$)" *)
Definition feedback_pattern : regex :=
  feedback_label ⋅ ws* ⋅ Group 1 (LazyStar Dot)
    ⋅ Lookahead (Alt summary_label Dollar).

(** r"Korean\s*Summary\s*:\s*", then group 1 around a greedy [.*], then [$]. *)
Definition summary_pattern : regex :=
  summary_label ⋅ ws* ⋅ Group 1 (Star Dot) ⋅ Dollar.

(** The section headers as the prompt spells them. *)
Definition CORRECTED_DIARY : str := Eval vm_compute in lit "Corrected Diary:".
Definition FEEDBACK : str := Eval vm_compute in lit "Feedback:".
Definition KOREAN_SUMMARY : str := Eval vm_compute in lit "Korean Summary:".

Definition patterns : list (string * regex) :=
  [ ("corrected_diary"%string, corrected_pattern);
    ("feedback_en"%string, feedback_pattern);
    ("summary_ko"%string, summary_pattern) ].

(** [match.group(1).strip()] if there is a match, else the empty string. *)
Definition extract (pattern : regex) (text : str) : str :=
  match search re_flags pattern text with
  | Some m => strip (default [] (group m 1))
  | None => []
  end.

(** [parsed[key]] for a key that the loop has set. *)
Definition get (parsed : gmap string str) (key : string) : str :=
  default [] (parsed !! key).

(** The loop over [patterns.items()]. *)
Definition extract_all (text : str) : gmap string str :=
  foldl (fun parsed kp => <[kp.1 := extract kp.2 text]> parsed) ∅ patterns.

Definition parse_feedback_response (text : str) : gmap string str :=
  let parsed := extract_all text in
  if negb (truthy (get parsed "corrected_diary"))
     && negb (truthy (get parsed "feedback_en"))
     && negb (truthy (get parsed "summary_ko"))
  then <["corrected_diary"%string := strip text]> parsed
  else parsed.

(** The test of the fallback: all three extractions are empty. *)
Definition all_empty (text : str) : bool :=
  negb (truthy (extract corrected_pattern text))
  && negb (truthy (extract feedback_pattern text))
  && negb (truthy (extract summary_pattern text)).

(** No label is found anywhere in the text, whatever the case of its
    letters and the blanks between its words and before its colon. *)
Definition label_free (text : str) : Prop :=
  search re_flags corrected_label text = None
  ∧ search re_flags feedback_label text = None
  ∧ search re_flags summary_label text = None.

Definition COLON : char := 0x3A.

(** The letters of a header word. *)
Definition is_letter (c : char) : bool := is_ascii_upper c || is_ascii_lower c.

(** The characters [l] of the text match the word [w] of a pattern. *)
Definition word_matches (w l : str) : Prop :=
  Forall2 (fun p c => lit_matches re_flags p c = true) w l.

Fixpoint word_matchesb (w l : str) : bool :=
  match w, l with
  | [], [] => true
  | p :: w', c :: l' => lit_matches re_flags p c && word_matchesb w' l'
  | _, _ => false
  end.

(** The text ends with a character that is no white space. *)
Definition ends_word (t : str) : bool :=
  match last t with
  | Some c => negb (isspace c)
  | None => false
  end.

(** No match of [label] starts at a position inside the section [sec],
    the section being followed by [tail] in the text. *)
Fixpoint header_free (label : regex) (sec tail : str) : bool :=
  match sec with
  | [] => true
  | _ :: sec' =>
      match match_here re_flags label (sec ++ tail) with
      | Some _ => false
      | None => header_free label sec' tail
      end
  end.

End Parser.

Import Parser.

(* ===================================================================== *)
(** * The parts of pandas and of the [csv] writer behind the record store *)
(* ===================================================================== *)

Module Pandas.

Definition COMMA : char := 0x2C.
Definition QUOTE : char := 0x22.
Definition LF : char := 0x0A.
Definition CR : char := 0x0D.
Definition FULL_STOP : char := 0x2E.
Definition SPACE : char := 0x20.
Definition TAB : char := 0x09.
Definition NUL : char := 0x00.
(** The byte-order mark that the [utf-8-sig] codec writes at position 0
    of a file. A file is modelled by its decoded text. *)
Definition BOM : char := 0xFEFF.

(** ** Frames *)

(** A cell of a frame. A number read from a file is kept as its literal:
    its int64 or float64 value is not modelled. [Undetermined] stands
    for a cell that [read_csv] may give as a number, as a boolean or
    as the text of its token, by rules that are not modelled (see
    [column_converter]): nothing is said about such a cell. *)
Inductive cell :=
| NaN
| Num (literal : str)
| Bool (b : bool)
| Str (s : str)
| Undetermined (token : str).

(** A frame: its number of rows and its labelled columns, in order. The
    row index is not modelled. *)
Record DataFrame := { nrows : nat; columns : list (str * list cell) }.

Inductive exn :=
| EmptyDataError
| ParserError
| KeyError (key : str).

(** What a call of pandas gives: a value or an exception. [Unmodelled]
    is for the inputs of [read_csv] that are left outside the model
    (see [read_csv]): nothing is said about them. *)
Inductive result (A : Type) :=
| Ok (a : A)
| Raise (e : exn)
| Unmodelled.
Arguments Ok {A} a.
Arguments Raise {A} e.
Arguments Unmodelled {A}.

Definition bind {A B} (r : result A) (k : A -> result B) : result B :=
  match r with
  | Ok a => k a
  | Raise e => Raise e
  | Unmodelled => Unmodelled
  end.

(** [df.columns] *)
Definition labels (df : DataFrame) : list str := (columns df).*1.

(** [col in df.columns] *)
Definition has_column (df : DataFrame) (col : str) : bool :=
  bool_decide (col ∈ labels df).

(** [pd.DataFrame(columns=cols)]: no rows. *)
Definition empty_frame (cols : list str) : DataFrame :=
  {| nrows := 0; columns := (fun c => (c, [])) <$> cols |}.

(** [pd.DataFrame([row])] for one dict [row] of strings: one row, the
    keys of the dict as columns, in their order. *)
Definition frame_of_row (row : list (str * str)) : DataFrame :=
  {| nrows := 1; columns := (fun kv => (kv.1, [Str kv.2])) <$> row |}.

(** [df[col] = v] for a scalar [v]: every row gets [v]; a new label is
    added after the others, an existing one is overwritten in place. *)
Definition setitem (df : DataFrame) (col : str) (v : cell) : DataFrame :=
  let filled := replicate (nrows df) v in
  {| nrows := nrows df;
     columns :=
       if has_column df col
       then (fun lc => if bool_decide (lc.1 = col) then (col, filled) else lc)
              <$> columns df
       else columns df ++ [(col, filled)] |}.

(** [df[cols]] for a list of labels: for each label the columns that
    carry it, in the order asked; [KeyError] for a label that is absent. *)
Fixpoint getitem_columns (cs : list (str * list cell)) (cols : list str)
    : result (list (str * list cell)) :=
  match cols with
  | [] => Ok []
  | col :: cols' =>
      match filter (fun lc => lc.1 = col) cs with
      | [] => Raise (KeyError col)
      | hit => bind (getitem_columns cs cols') (fun tl => Ok (hit ++ tl))
      end
  end.

Definition getitem (df : DataFrame) (cols : list str) : result DataFrame :=
  bind (getitem_columns (columns df) cols)
       (fun cs => Ok {| nrows := nrows df; columns := cs |}).

(** [df[col]] as the list of its cells: the first column that carries
    the label. *)
Definition find_column (cs : list (str * list cell)) (col : str) : option (list cell) :=
  snd <$> head (filter (fun lc => lc.1 = col) cs).

Definition column (df : DataFrame) (col : str) : option (list cell) :=
  find_column (columns df) col.

(** [df.iloc[i]]: the cells of row [i], by column. *)
Definition iloc (df : DataFrame) (i : nat) : option (list cell) :=
  mapM (fun lc => lc.2 !! i) (columns df).

(** The rows of a frame, by position. *)
Definition rows (df : DataFrame) : list (list cell) :=
  omap (iloc df) (seq 0 (nrows df)).

(** ** Writing: [csv.writer] under [DataFrame.to_csv] *)

(** QUOTE_MINIMAL: a field is quoted when it holds the delimiter, the
    quote character or a character of the line terminator, which
    [to_csv] takes from [os.linesep] (a line feed here). Python 3.13 and
    later quote a carriage return as well; fields with a carriage return
    that are not quoted for another reason are left aside below
    ([no_bare_cr]), so that the difference does not matter. *)
Definition is_special (c : char) : bool :=
  (c =? COMMA) || (c =? QUOTE) || (c =? LF).

Definition needs_quote (field : str) : bool := existsb is_special field.


(** doublequote=True *)
Definition double_quotes (field : str) : str :=
  flat_map (fun c => if c =? QUOTE then [QUOTE; QUOTE] else [c]) field.

Definition write_field (field : str) : str :=
  if needs_quote field then QUOTE :: double_quotes field ++ [QUOTE] else field.

Fixpoint join_fields (fields : list str) : str :=
  match fields with
  | [] => []
  | [w] => w
  | w :: ws => w ++ COMMA :: join_fields ws
  end.

(** [writer.writerow(fields)] with the POSIX line terminator; a lone
    empty field is written quoted. *)
Definition writerow (fields : list str) : str :=
  match fields with
  | [w] => (if truthy w then write_field w else [QUOTE; QUOTE]) ++ [LF]
  | _ => join_fields (write_field <$> fields) ++ [LF]
  end.

(** How [to_csv] prints a cell (na_rep is the empty string). *)
Definition cell_text (c : cell) : str :=
  match c with
  | NaN => []
  | Num literal => literal
  | Bool true => lit "True"
  | Bool false => lit "False"
  | Str s => s
  | Undetermined token => token
  end.

(** The text [to_csv(index=False, header=header)] produces for a frame. *)
Definition csv_text (df : DataFrame) (header : bool) : str :=
  (if header then writerow (labels df) else [])
    ++ concat (writerow <$> ((fmap cell_text) <$> rows df)).

(** ** Reading: the tokenizer of [read_csv] *)

Inductive tok_state :=
| START_RECORD
| WHITESPACE_LINE
| START_FIELD
| IN_FIELD
| IN_QUOTED_FIELD
| QUOTE_IN_QUOTED_FIELD
| EAT_CRNL
| EAT_CRNL_NOP.

(** The tokenizer: its state, the field being read, the fields of the
    line being read, and the finished lines. [resumed] records that a
    line which started with blanks went on with another character: the
    tokenizer then steps back in its read buffer to the start of the
    line. *)
Record tokenizer := {
  state : tok_state;
  word : str;
  fields : list str;
  lines : list (list str);
  resumed : bool
}.

Definition SET_STATE (t : tokenizer) (st : tok_state) : tokenizer :=
  {| state := st; word := word t; fields := fields t; lines := lines t;
     resumed := resumed t |}.
Definition PUSH_CHAR (t : tokenizer) (c : char) (st : tok_state) : tokenizer :=
  {| state := st; word := word t ++ [c]; fields := fields t; lines := lines t;
     resumed := resumed t |}.
Definition END_FIELD (t : tokenizer) (st : tok_state) : tokenizer :=
  {| state := st; word := []; fields := fields t ++ [word t]; lines := lines t;
     resumed := resumed t |}.
Definition END_LINE (t : tokenizer) (st : tok_state) : tokenizer :=
  {| state := st; word := []; fields := []; lines := lines t ++ [fields t];
     resumed := resumed t |}.

(** IS_WHITESPACE of the tokenizer: a blank or a tab. *)
Definition is_blank (c : char) : bool := (c =? SPACE) || (c =? TAB).

Definition start_field (t : tokenizer) (c : char) : tokenizer :=
  if c =? LF then END_LINE (END_FIELD t START_FIELD) START_RECORD
  else if c =? CR then END_FIELD t EAT_CRNL
  else if c =? QUOTE then SET_STATE t IN_QUOTED_FIELD
  else if c =? COMMA then END_FIELD t START_FIELD
  else PUSH_CHAR t c IN_FIELD.

(** Inside a field without quotes. *)
Definition in_field (t : tokenizer) (c : char) : tokenizer :=
  if c =? LF then END_LINE (END_FIELD t START_FIELD) START_RECORD
  else if c =? CR then END_FIELD t EAT_CRNL
  else if c =? COMMA then END_FIELD t START_FIELD
  else PUSH_CHAR t c IN_FIELD.

(** At the start of a record an empty line is skipped
    (skip_blank_lines=True); a blank or a tab may start a line of white
    space; another character starts a field. *)
Definition start_record (t : tokenizer) (c : char) : tokenizer :=
  if c =? LF then SET_STATE t START_RECORD
  else if c =? CR then SET_STATE t EAT_CRNL_NOP
  else if is_blank c then PUSH_CHAR t c WHITESPACE_LINE
  else start_field t c.

(** In a line that has held blanks and tabs only so far, which are kept
    in [word]. The end of the line skips the line. Another character
    makes the tokenizer step back to the start of the line and read it
    as a record: the blanks start its first field. *)
Definition whitespace_line (t : tokenizer) (c : char) : tokenizer :=
  if c =? LF then
    {| state := START_RECORD; word := []; fields := fields t; lines := lines t;
       resumed := resumed t |}
  else if c =? CR then
    {| state := EAT_CRNL_NOP; word := []; fields := fields t; lines := lines t;
       resumed := resumed t |}
  else if is_blank c then PUSH_CHAR t c WHITESPACE_LINE
  else
    in_field {| state := IN_FIELD; word := word t; fields := fields t;
                lines := lines t; resumed := true |} c.

Definition tokenize_step (t : tokenizer) (c : char) : tokenizer :=
  match state t with
  | START_RECORD => start_record t c
  | WHITESPACE_LINE => whitespace_line t c
  | START_FIELD => start_field t c
  | IN_FIELD => in_field t c
  | IN_QUOTED_FIELD =>
      if c =? QUOTE then SET_STATE t QUOTE_IN_QUOTED_FIELD
      else PUSH_CHAR t c IN_QUOTED_FIELD
  | QUOTE_IN_QUOTED_FIELD =>
      if c =? QUOTE then PUSH_CHAR t c IN_QUOTED_FIELD
      else if c =? COMMA then END_FIELD t START_FIELD
      else if c =? LF then END_LINE (END_FIELD t START_FIELD) START_RECORD
      else if c =? CR then END_FIELD t EAT_CRNL
      else PUSH_CHAR t c IN_FIELD
  | EAT_CRNL =>
      if c =? LF then END_LINE t START_RECORD
      else if c =? COMMA then END_FIELD (END_LINE t START_FIELD) START_FIELD
      else start_record (END_LINE t START_RECORD) c
  | EAT_CRNL_NOP =>
      if (c =? LF) || (c =? COMMA) then SET_STATE t START_RECORD
      else start_record (SET_STATE t START_RECORD) c
  end.

(** The end of the input closes the field and the line being read; it
    is an error inside a quoted field; a line of white space that is
    not ended is skipped. *)
Definition handle_eof (t : tokenizer) : option (list (list str)) :=
  match state t with
  | START_RECORD | WHITESPACE_LINE | EAT_CRNL_NOP => Some (lines t)
  | IN_QUOTED_FIELD => None
  | IN_FIELD | START_FIELD | QUOTE_IN_QUOTED_FIELD =>
      Some (lines (END_LINE (END_FIELD t START_FIELD) START_RECORD))
  | EAT_CRNL => Some (lines (END_LINE t START_RECORD))
  end.

Definition tokenizer_init : tokenizer :=
  {| state := START_RECORD; word := []; fields := []; lines := [];
     resumed := false |}.

(** The tokenizer after the whole input. *)
Definition tokenizer_run (input : str) : tokenizer :=
  foldl tokenize_step tokenizer_init input.

Definition tokenize (input : str) : option (list (list str)) :=
  handle_eof (tokenizer_run input).

(** ** Reading: column labels *)

Definition digit_char (d : nat) : char := 0x30 + N.of_nat d.

Fixpoint show_nat_aux (fuel n : nat) (acc : str) : str :=
  match fuel with
  | O => acc
  | S fuel' =>
      let acc' := digit_char (n mod 10) :: acc in
      if (n <? 10)%nat then acc' else show_nat_aux fuel' (n / 10) acc'
  end.

(** [str(n)] *)
Definition show_nat (n : nat) : str := show_nat_aux (S n) n [].

(** A blank header cell is labelled by its position. *)
Definition unnamed (i : nat) : str := lit "Unnamed: " ++ show_nat i.

Definition with_unnamed (header : list str) : list str :=
  imap (fun i name => if truthy name then name else unnamed i) header.

Definition count (counts : gmap str nat) (col : str) : nat :=
  default O (counts !! col).

(** The inner loop that renames a repeated label [col] to [col.1],
    [col.2], ... until the label is new. Every label with a positive
    count has been given out already, so a candidate longer than all
    of those ends the loop: that bounds the number of rounds. *)
Fixpoint dedup_loop (rounds : nat) (counts : gmap str nat) (col : str)
    : gmap str nat * str :=
  match rounds with
  | O => (counts, col)
  | S rounds' =>
      let cur_count := count counts col in
      if (0 <? cur_count)%nat
      then dedup_loop rounds' (<[col := S cur_count]> counts)
                      (col ++ FULL_STOP :: show_nat cur_count)
      else (counts, col)
  end.

Definition dedup_step (acc : gmap str nat * list str) (col : str)
    : gmap str nat * list str :=
  let '(counts, names) := acc in
  let '(counts', col') :=
    dedup_loop (S (max_list (length <$> names))) counts col in
  (<[col' := S (count counts' col')]> counts', names ++ [col']).

(** What the loop over the labels keeps true: the labels given out
    are distinct, and they are the labels with a positive count. *)
Definition dedup_inv (acc : gmap str nat * list str) : Prop :=
  NoDup acc.2 ∧ ∀ c, (0 < count acc.1 c)%nat ↔ c ∈ acc.2.

(** Duplicate labels are told apart (pandas' [_dedup_names]). *)
Definition dedup_names (names : list str) : list str :=
  (foldl dedup_step (∅, []) names).2.

Definition label_columns (header : list str) : list str :=
  dedup_names (with_unnamed header).

(** ** Reading: conversion of the columns *)

(** The default NA markers of [read_csv]. *)
Definition na_values : list str :=
  [ []; lit "#N/A"; lit "#N/A N/A"; lit "#NA"; lit "-1.#IND"; lit "-1.#QNAN";
    lit "-NaN"; lit "-nan"; lit "1.#IND"; lit "1.#QNAN"; lit "<NA>"; lit "N/A";
    lit "NA"; lit "NULL"; lit "NaN"; lit "None"; lit "n/a"; lit "nan"; lit "null" ].

Definition is_na (token : str) : bool := bool_decide (token ∈ na_values).

Definition is_digit (c : char) : bool := (0x30 <=? c) && (c <=? 0x39).
(** [isspace_ascii] of the parser *)
Definition isspace_ascii (c : char) : bool :=
  (c =? 0x20) || ((0x09 <=? c) && (c <=? 0x0D)).
Definition is_sign (c : char) : bool := (c =? 0x2B) || (c =? 0x2D).

Fixpoint skip (p : char -> bool) (s : str) : str :=
  match s with
  | c :: s' => if p c then skip p s' else s
  | [] => []
  end.

Definition skip_one (p : char -> bool) (s : str) : str :=
  match s with
  | c :: s' => if p c then s' else s
  | [] => []
  end.

(** The exponent of a number: [e] or [E], a sign if any, then digits.
    Without digits the exponent is not read. *)
Definition skip_exponent (s : str) : str :=
  match s with
  | c :: s' =>
      if (c =? 0x65) || (c =? 0x45) then
        let s'' := skip_one is_sign s' in
        if (length (skip is_digit s'') <? length s'')%nat
        then skip is_digit s'' else s
      else s
  | [] => []
  end.

(** A decimal literal as the numeric converters read it: blanks, a sign
    if any, digits with at most one decimal point and at least one
    digit, an exponent if any, blanks. An integer literal is the case
    without point and exponent. *)
Definition is_decimal (token : str) : bool :=
  let s0 := skip_one is_sign (skip isspace_ascii token) in
  let s1 := skip is_digit s0 in
  let int_digits := (length s0 - length s1)%nat in
  let '(frac_digits, s2) :=
    match s1 with
    | c :: s' =>
        if c =? FULL_STOP
        then ((length s' - length (skip is_digit s'))%nat, skip is_digit s')
        else (O, s1)
    | [] => (O, [])
    end in
  (0 <? int_digits + frac_digits)%nat
  && bool_decide (skip isspace_ascii (skip_exponent s2) = []).

Definition ascii_lower (c : char) : char :=
  if is_ascii_upper c then c + 32 else c.

(** The spellings of infinity, in any case. *)
Definition is_infinity (token : str) : bool :=
  bool_decide (ascii_lower <$> token ∈
    [ lit "inf"; lit "+inf"; lit "-inf";
      lit "infinity"; lit "+infinity"; lit "-infinity" ]).

(** What may be read as a number: no numeric converter reads another
    token. Whether it is read as one depends on its size as well. *)
Definition is_number (token : str) : bool :=
  is_decimal token || is_infinity token.

(** A plain decimal number: a sign if any, then digits, then a point
    and digits if any, at most 15 characters in all. Each numeric
    converter reads it, and its digits fit int64 and float64. *)
Definition is_plain_number (token : str) : bool :=
  is_decimal token
  && forallb (fun c => is_digit c || is_sign c || (c =? FULL_STOP)) token
  && (length token <=? 15)%nat
  && match skip_one is_sign token with
     | c :: _ => is_digit c
     | [] => false
     end
  && match last token with
     | Some c => is_digit c
     | None => false
     end.

(** The words that the boolean converter reads: true and false, the
    letters in any case. *)
Definition is_true (token : str) : bool :=
  bool_decide (ascii_lower <$> token = lit "true").
Definition is_false (token : str) : bool :=
  bool_decide (ascii_lower <$> token = lit "false").

Definition is_bool (token : str) : bool := is_true token || is_false token.

(** The type of a column is chosen from its tokens that are not NA. If
    they are all plain numbers, the column holds numbers; if they are
    all booleans, it holds booleans. In any other column a token that
    is neither a number nor a boolean stays the text it is. The other
    tokens of such a column are left undetermined: whether one that
    looks like a number is read as a number depends on the ranges of
    the int64, uint64 and float64 converters, and a long file is
    converted in blocks of rows, each with the type of its own tokens.
    NA tokens become NaN in each case. *)
Definition column_converter (tokens : list str) : str -> cell :=
  let values := filter (fun t => is_na t = false) tokens in
  let conv :=
    if forallb is_plain_number values then Num
    else if forallb is_bool values then (fun t => Bool (is_true t))
    else (fun t => if is_number t || is_bool t then Undetermined t else Str t) in
  fun t => if is_na t then NaN else conv t.

Definition convert_column (tokens : list str) : list cell :=
  column_converter tokens <$> tokens.

(** ** Reading: [pd.read_csv(path)] on the text of a file *)

Definition strip_bom (content : str) : str :=
  match content with
  | c :: content' => if c =? BOM then content' else content
  | [] => []
  end.

(** A line shorter than the table is completed with empty fields. *)
Definition pad (width : nat) (line : list str) : list str :=
  line ++ replicate (width - length line) [].

(** The frame made of the lines of a file. The first line gives the
    labels. The table is as wide as the longer of the header and the
    first data line; fields that the first data line has in excess of
    the header come first and make the index. A later line wider than
    the table is an error. *)
Definition build_frame (header : list str) (data : list (list str)) : result DataFrame :=
  let names := label_columns header in
  let width := (length names `max` default O (length <$> head data))%nat in
  let leading := (width - length names)%nat in
  if existsb (fun line => (width <? length line)%nat) data
  then Raise ParserError
  else
    let table := pad width <$> data in
    Ok {| nrows := length data;
          columns :=
            imap (fun j name =>
                    (name,
                     convert_column
                       ((fun line => default [] (line !! (leading + j)%nat)) <$> table)))
                 names |}.

(** The size of the read buffer of the tokenizer, in bytes. *)
Definition BUFFER_SIZE : N := 262144.

(** A text of at most 65536 characters takes at most [BUFFER_SIZE]
    bytes in UTF-8: the tokenizer reads it as one buffer. *)
Definition one_buffer (content : str) : bool :=
  4 * N.of_nat (length content) <=? BUFFER_SIZE.

Definition holds (c : char) (content : str) : bool :=
  existsb (fun d => d =? c) content.

(** [pd.read_csv(path)] with its defaults. Two kinds of files are left
    outside the model. A file with a NUL character: the fields are
    handled as C strings. A file in which the tokenizer steps back to
    the start of a line ([resumed]), unless the file is one buffer and
    holds no carriage return: the step back stops at the start of the
    buffer, and at a line feed only. *)
Definition read_csv (content : str) : result DataFrame :=
  let t := tokenizer_run (strip_bom content) in
  if holds NUL content then Unmodelled
  else if resumed t && negb (one_buffer content && negb (holds CR content))
  then Unmodelled
  else
    match handle_eof t with
    | None => Raise ParserError
    | Some [] => Raise EmptyDataError
    | Some (header :: data) => build_frame header data
    end.





End Pandas.

Import Pandas.

(* ===================================================================== *)
(** * Record store *)
(* ===================================================================== *)

Module Store.

(** The files of the working directory, by path, each with its text. *)
Abbreviation filesystem := (gmap string str).

Definition CSV_PATH : string := "diary_logs.csv".

(** [os.path.exists(path)] *)
Definition path_exists (fs : filesystem) (path : string) : bool :=
  bool_decide (is_Some (fs !! path)).

(** Writing [text] to a file opened with [open(path, "a",
    encoding="utf-8-sig")]: the file is created if absent, the text goes
    after what the file holds, and the codec puts its mark first when
    the write starts at position 0. *)
Definition append_text (fs : filesystem) (path : string) (text : str) : filesystem :=
  let old := default [] (fs !! path) in
  <[path := old ++ (if bool_decide (old = []) then [BOM] else []) ++ text]> fs.

(** [df.to_csv(path, mode="a", index=False, header=header,
    encoding="utf-8-sig")] on a file that can be opened for writing. *)
Definition to_csv (df : DataFrame) (path : string) (header : bool)
    (fs : filesystem) : filesystem :=
  append_text fs path (csv_text df header).

Definition save_diary_to_csv
    (timestamp selected_date student_id mood original_diary
     corrected_diary feedback_en summary_ko : str)
    (csv_path : string) (fs : filesystem) : filesystem :=
  let row_df :=
    frame_of_row
      [ (lit "timestamp", timestamp);
        (lit "date", selected_date);
        (lit "student_id", student_id);
        (lit "mood", mood);
        (lit "original_diary", original_diary);
        (lit "corrected_diary", corrected_diary);
        (lit "feedback_en", feedback_en);
        (lit "summary_ko", summary_ko) ] in
  let file_exists := path_exists fs csv_path in
  to_csv row_df csv_path (negb file_exists) fs.

Definition expected_cols : list str :=
  [ lit "timestamp"; lit "date"; lit "student_id"; lit "mood";
    lit "original_diary"; lit "corrected_diary"; lit "feedback_en";
    lit "summary_ko" ].

(** One round of the loop that adds each expected column the frame
    lacks, and the loop. *)
Definition fill_step (df : DataFrame) (col : str) : DataFrame :=
  if negb (has_column df col) then setitem df col (Str []) else df.

Definition fill_missing (df : DataFrame) : DataFrame :=
  foldl fill_step df expected_cols.

Definition load_diary_csv (csv_path : string) (fs : filesystem) : result DataFrame :=
  if negb (path_exists fs csv_path) then Ok (empty_frame expected_cols)
  else
    bind (read_csv (default [] (fs !! csv_path)))
         (fun df => getitem (fill_missing df) expected_cols).

(** A diary record: the eight fields of a row, all text. *)
Record DiaryRecord := {
  timestamp : str;
  date : str;
  student_id : str;
  mood : str;
  original_diary : str;
  corrected_diary : str;
  feedback_en : str;
  summary_ko : str
}.

Definition record_fields (r : DiaryRecord) : list str :=
  [ timestamp r; date r; student_id r; mood r; original_diary r;
    corrected_diary r; feedback_en r; summary_ko r ].

(** Appending a record to the store at [csv_path]. *)
Definition append_record (csv_path : string) (fs : filesystem) (r : DiaryRecord)
    : filesystem :=
  save_diary_to_csv (timestamp r) (date r) (student_id r) (mood r)
    (original_diary r) (corrected_diary r) (feedback_en r) (summary_ko r)
    csv_path fs.

(** The header row is there when the text of the store file starts
    with the line of the eight column names (after the codec's mark). *)
Definition has_header (content : str) : bool :=
  starts_with (writerow expected_cols) (strip_bom content).


(** The store at [csv_path] after the records [rs] were appended, one
    after the other. *)
Definition append_records (csv_path : string) (fs : filesystem)
    (rs : list DiaryRecord) : filesystem :=
  foldl (append_record csv_path) fs rs.

(** The store file is absent, or it starts with the header row. *)
Definition store_ok (csv_path : string) (fs : filesystem) : Prop :=
  match fs !! csv_path with
  | None => True
  | Some content => has_header content = true
  end.




End Store.

Import Store.

(* ===================================================================== *)
(** * Feedback generator and submit handler *)
(* ===================================================================== *)

Module App.

(** What a call that may raise gives: a value, or the text of the
    exception ([str(exc)]). *)
Inductive outcome (A : Type) :=
| Returns (a : A)
| Raises (exc : str).
Arguments Returns {A} a.
Arguments Raises {A} exc.

(** The remote model: from the API key and the prompt to [response.text]
    (which may be [None]), or an exception. *)
Definition remote_model : Type := str -> str -> outcome (option str).

(** What the user sees. *)
Inductive widget :=
| st_error (msg : str)
| st_success (msg : str)
| st_subheader (text : str)
| st_code (text : str)
| st_markdown (text : str).

(** The state the handler acts on: the files, the prompts sent to the
    remote model so far, and the widgets shown so far. [write_error] is
    the text of the exception that [to_csv] raises when the store file
    cannot be opened for writing (permission denied, for instance), if
    it cannot: nothing is written then. *)
Record World := {
  files : filesystem;
  requests : list str;
  screen : list widget;
  write_error : option str
}.

Definition show (w : World) (ws : list widget) : World :=
  {| files := files w; requests := requests w; screen := screen w ++ ws;
     write_error := write_error w |}.

Definition prompt_head : str :=
  [LF] ++ lit "You are an English teacher for middle school EFL students.
The student wrote an English emotion diary.

Please respond with these exact section headers:
Corrected Diary:
Feedback:
Korean Summary:

Rules:
1) Rewrite the diary in correct and natural English, but do not change the meaning or level too much.
2) Give friendly feedback in simple English (2-3 sentences, CEFR A2-B1 level).
   - Show empathy for the student's feelings.
   - Praise 1-2 good things about the writing.
   - Suggest one small thing to improve next time.
3) Write a one-sentence summary in Korean for the teacher.

Student diary: " ++ [QUOTE; QUOTE; QUOTE].

Definition prompt_tail : str := [QUOTE; QUOTE; QUOTE; LF].

(** [response.text or ...]: the text of the response, the empty string
    if there is none. *)
Definition text_or_empty (text : option str) : str :=
  match text with
  | Some t => t
  | None => []
  end.

(** [generate_feedback(client, diary_text)]: one request to the remote
    model; an exception of the call goes to the caller. *)
Definition generate_feedback (client : str -> outcome (option str))
    (diary_text : str) (w : World) : World * outcome (gmap string str) :=
  let prompt := prompt_head ++ diary_text ++ prompt_tail in
  let w' := {| files := files w; requests := requests w ++ [prompt];
               screen := screen w; write_error := write_error w |} in
  match client prompt with
  | Raises exc => (w', Raises exc)
  | Returns text =>
      let raw_text := strip (text_or_empty text) in
      let parsed := parse_feedback_response raw_text in
      (w', Returns (<["raw_response"%string := raw_text]> parsed))
  end.

(** A calendar date. *)
Record calendar_date := { year : N; month : N; day : N }.

(** The last [width] decimal digits of [n], with leading zeros. *)
Fixpoint zfill (width : nat) (n : N) : str :=
  match width with
  | O => []
  | S width' => zfill width' (n / 10) ++ [0x30 + n mod 10]
  end.

Definition HYPHEN : char := 0x2D.

(** [d.isoformat()]: YYYY-MM-DD *)
Definition isoformat (d : calendar_date) : str :=
  zfill 4 (year d) ++ [HYPHEN] ++ zfill 2 (month d) ++ [HYPHEN] ++ zfill 2 (day d).


(** The inputs of the form when the button is pressed. *)
Record Form := {
  api_key : str;
  selected_date : calendar_date;
  student_input : str;
  mood_choice : str;
  diary_text : str
}.

Definition mood_options : list str :=
  [ lit "😊 Happy"; lit "😢 Sad"; lit "😡 Angry"; lit "😴 Tired";
    lit "😌 Calm"; lit "🤩 Excited"; lit "😐 So-so" ].

Definition msg_no_key : str :=
  lit "Please enter your Gemini API key first. / 먼저 Gemini API 키를 입력해주세요.".
Definition msg_no_diary : str :=
  lit "Please write your diary before submitting. / 일기를 먼저 작성해주세요.".
Definition msg_failed : str :=
  lit "Could not generate feedback. Please check your API key/network. / 피드백 생성에 실패했습니다. API 키와 네트워크를 확인해주세요."
  ++ [LF; LF] ++ lit "Error: ".

(** [result.get(key, default)] with the empty string as default. *)
Definition dict_get (d : gmap string str) (key : string) : str :=
  default [] (d !! key).

(** [save_diary_to_csv(...)] as the handler calls it, on the store at
    [CSV_PATH]: the call raises when the store file cannot be written,
    and appends the row when it can. *)
Definition save_in_world
    (timestamp selected_date student_id mood original_diary
     corrected_diary feedback_en summary_ko : str)
    (w : World) : World * outcome unit :=
  match write_error w with
  | Some exc => (w, Raises exc)
  | None =>
      ({| files :=
            save_diary_to_csv timestamp selected_date student_id mood
              original_diary corrected_diary feedback_en summary_ko
              CSV_PATH (files w);
          requests := requests w;
          screen := screen w;
          write_error := write_error w |},
       Returns tt)
  end.

(** The body of [if st.button("Save & Get Feedback", ...)] in [main].
    [now] is [dt.datetime.now().isoformat(timespec="seconds")].
    [st.stop()] ends the run: nothing after it is executed. An
    exception of [generate_feedback] or of [save_diary_to_csv] leaves
    the [try] block and is shown by the [except] clause. *)
Definition on_submit (gemini : remote_model) (now : str) (form : Form)
    (w : World) : World :=
  let student_id := or_else (strip (student_input form)) (lit "Anonymous") in
  if negb (truthy (api_key form)) then show w [st_error msg_no_key]
  else if negb (truthy (strip (diary_text form))) then show w [st_error msg_no_diary]
  else
    match generate_feedback (gemini (api_key form)) (strip (diary_text form)) w with
    | (w1, Raises exc) => show w1 [st_error (msg_failed ++ exc)]
    | (w1, Returns result) =>
        let corrected_diary := dict_get result "corrected_diary" in
        let feedback_en := dict_get result "feedback_en" in
        let summary_ko := dict_get result "summary_ko" in
        match
          save_in_world now (isoformat (selected_date form)) student_id
            (mood_choice form) (strip (diary_text form))
            corrected_diary feedback_en summary_ko w1
        with
        | (w2, Raises exc) => show w2 [st_error (msg_failed ++ exc)]
        | (w2, Returns _) =>
            show w2
              [ st_success (lit "Saved successfully! 저장이 완료되었습니다.");
                st_subheader (lit "Original Diary");
                st_code (strip (diary_text form));
                st_subheader (lit "Corrected Diary");
                st_markdown (or_else corrected_diary (lit "(No parsed corrected diary)"));
                st_subheader (lit "Feedback (Easy English)");
                st_markdown (or_else feedback_en (lit "(No parsed feedback)"));
                st_subheader (lit "Korean Summary for Teacher");
                st_markdown (or_else summary_ko (lit "(No parsed Korean summary)")) ]
        end
    end.

(** The record that a submission writes, given the parsed reply. *)
Definition submitted_record (now : str) (form : Form) (result : gmap string str)
    : DiaryRecord :=
  {| timestamp := now;
     date := isoformat (selected_date form);
     student_id := or_else (strip (student_input form)) (lit "Anonymous");
     mood := mood_choice form;
     original_diary := strip (diary_text form);
     corrected_diary := dict_get result "corrected_diary";
     feedback_en := dict_get result "feedback_en";
     summary_ko := dict_get result "summary_ko" |}.

End App.

Import App.

(* ===================================================================== *)
(** * Sample inputs *)
(* ===================================================================== *)

Definition form_blank : Form :=
  {| api_key := lit "key"; selected_date := {| year := 2024; month := 5; day := 1 |};
     student_input := lit "Mina-03"; mood_choice := lit "😊 Happy";
     diary_text := lit "   " ++ [LF] |}.

Definition form_ok : Form :=
  {| api_key := lit "key"; selected_date := {| year := 2024; month := 5; day := 1 |};
     student_input := lit "Mina-03"; mood_choice := lit "😊 Happy";
     diary_text := lit "I am happy today." |}.

Definition world0 : World :=
  {| files := ∅; requests := []; screen := []; write_error := None |}.

Definition record0 : DiaryRecord :=
  {| timestamp := lit "2024-05-01T10:00:00"; date := lit "2024-05-01";
     student_id := lit "Mina-03"; mood := lit "😊 Happy";
     original_diary := lit "i am happy today";
     corrected_diary := lit "I am happy today.";
     feedback_en := lit "Good job!"; summary_ko := lit "행복한 하루." |}.


Definition form_no_key : Form :=
  {| api_key := []; selected_date := {| year := 2024; month := 5; day := 1 |};
     student_input := lit "Mina-03"; mood_choice := lit "😊 Happy";
     diary_text := lit "I am happy today." |}.

(** A remote model that always gives the same reply. *)
Definition gemini_fixed : remote_model :=
  fun _ _ =>
    Returns (Some (lit "Corrected Diary: I am happy today.
Feedback: Good job!
Korean Summary: 행복한 하루.
")).




(** A store file of an older version, without the three parsed columns. *)
Definition file_older_version : str :=
  lit "timestamp,date,student_id,mood,original_diary
2024-05-01T10:00:00,2024-05-01,Mina-03,Happy,i am happy today
".

Definition frame_older_version : DataFrame :=
  Eval vm_compute in
    match read_csv file_older_version with
    | Ok df => df
    | _ => empty_frame []
    end.

(** A store file of an older version in which a line has a field more
    than the header. *)
Definition file_ragged : str :=
  lit "timestamp,date
2024-05-01T10:00:00,2024-05-01
2024-05-02T09:30:00,2024-05-02,Mina-03
".

(** A world in which the store file cannot be opened for writing. *)
Definition world_locked : World :=
  {| files := ∅; requests := []; screen := [];
     write_error := Some (lit "[Errno 13] Permission denied: 'diary_logs.csv'") |}.

(** A store file with one column more than the eight. *)
Definition file_extra_column : str :=
  lit "timestamp,date,student_id,mood,original_diary,corrected_diary,feedback_en,summary_ko,teacher_note
2024-05-01T10:00:00,2024-05-01,Mina-03,Happy,i am happy today,I am happy today.,Good job!,ok,seen
".

Definition frame_extra_column : DataFrame :=
  Eval vm_compute in
    match read_csv file_extra_column with
    | Ok df => df
    | _ => empty_frame []
    end.

(* ===================================================================== *)
(** * Facts about Python strings *)
(* ===================================================================== *)

Section StrFacts.

Lemma lstrip_suffix (s : str) : ∃ a, s = a ++ lstrip s.
Proof.
  induction s as [|c s IH]; simpl.
  - by exists [].
  - destruct (isspace c).
    + destruct IH as [a Ha]. exists (c :: a). simpl. by rewrite <- Ha.
    + by exists [].
Qed.

Lemma rstrip_prefix (s : str) : ∃ b, s = rstrip s ++ b.
Proof.
  unfold rstrip. destruct (lstrip_suffix (rev s)) as [a Ha].
  exists (rev a). rewrite <- rev_app_distr, <- Ha. by rewrite rev_involutive.
Qed.

Lemma strip_infix (s : str) : ∃ a b, s = a ++ strip s ++ b.
Proof.
  unfold strip. destruct (lstrip_suffix s) as [a Ha].
  destruct (rstrip_prefix (lstrip s)) as [b Hb].
  exists a, b. by rewrite <- Hb.
Qed.

Lemma lstrip_clean (s : str) : starts_clean (lstrip s).
Proof.
  induction s as [|c s IH]; simpl; [done|].
  destruct (isspace c) eqn:E; [done|]. simpl. done.
Qed.

Lemma lstrip_id (s : str) : starts_clean s → lstrip s = s.
Proof. destruct s as [|c s]; simpl; [done|]. by intros ->. Qed.

Lemma lstrip_idemp (s : str) : lstrip (lstrip s) = lstrip s.
Proof. apply lstrip_id, lstrip_clean. Qed.

Lemma rstrip_idemp (s : str) : rstrip (rstrip s) = rstrip s.
Proof. unfold rstrip. by rewrite rev_involutive, lstrip_idemp. Qed.

Lemma rstrip_starts_clean (s : str) : starts_clean s → starts_clean (rstrip s).
Proof.
  intros Hs. destruct (rstrip_prefix s) as [b Hb].
  destruct (rstrip s) as [|c r] eqn:E; [done|].
  rewrite Hb in Hs. exact Hs.
Qed.

Lemma strip_idemp (s : str) : strip (strip s) = strip s.
Proof.
  unfold strip at 1.
  rewrite (lstrip_id (strip s)).
  - unfold strip. apply rstrip_idemp.
  - unfold strip. apply rstrip_starts_clean, lstrip_clean.
Qed.

Lemma strip_nil : strip [] = [].
Proof. reflexivity. Qed.

Lemma starts_with_spec (needle hay : str) :
  starts_with needle hay = true ↔ ∃ b, hay = needle ++ b.
Proof.
  revert hay. induction needle as [|c n IH]; intros hay; simpl.
  - split; [intros _; by exists hay | done].
  - destruct hay as [|d h].
    + split; [done | intros [b Hb]; discriminate].
    + rewrite andb_true_iff, N.eqb_eq, IH. split.
      * intros [-> [b ->]]. by exists b.
      * intros [b Hb]. injection Hb as -> ->. split; [done | by exists b].
Qed.

Lemma contains_spec (needle hay : str) :
  contains needle hay = true ↔ ∃ a b, hay = a ++ needle ++ b.
Proof.
  induction hay as [|d h IH]; simpl.
  - rewrite orb_false_r, starts_with_spec. split.
    + intros [b Hb]. by exists [], b.
    + intros [a [b Hab]]. symmetry in Hab.
      apply app_eq_nil in Hab as [-> Hab].
      apply app_eq_nil in Hab as [-> ->]. by exists [].
  - rewrite orb_true_iff, starts_with_spec, IH. split.
    + intros [[b Hb] | [a [b Hab]]].
      * by exists [], b.
      * exists (d :: a), b. simpl. by rewrite Hab.
    + intros [a [b Hab]]. destruct a as [|a0 a].
      * left. by exists b.
      * right. exists a, b. simpl in Hab. by injection Hab.
Qed.

Lemma contains_false_infix (needle s a b : str) :
  contains needle (a ++ s ++ b) = false → contains needle s = false.
Proof.
  intros H. destruct (contains needle s) eqn:E; [|done].
  apply contains_spec in E as [x [y ->]].
  assert (contains needle (a ++ (x ++ needle ++ y) ++ b) = true) as Ht.
  { apply contains_spec. exists (a ++ x), (y ++ b). by rewrite <- !app_assoc. }
  congruence.
Qed.

Lemma contains_strip (needle s : str) :
  contains needle s = false → contains needle (strip s) = false.
Proof.
  intros H. destruct (strip_infix s) as [a [b Hab]].
  rewrite Hab in H. by apply contains_false_infix in H.
Qed.

End StrFacts.

(* ===================================================================== *)
(** * Facts about the matcher *)
(* ===================================================================== *)

Section MatcherFacts.
Variable f : flags.

Lemma star_greedy_inv {A} a (s : str) (k : str → option A) x :
  star_greedy f a s k = Some x → ∃ s', k s' = Some x ∧ s' `suffix_of` s.
Proof.
  induction s as [|c s IH]; simpl.
  - intros H. by exists [].
  - destruct (atom_matches f a c).
    + destruct (star_greedy f a s k) eqn:E.
      * intros [= ->]. destruct (IH eq_refl) as [s' [Hk Hs]].
        exists s'. split; [done|]. by apply suffix_cons_r.
      * intros H. by exists (c :: s).
    + intros H. by exists (c :: s).
Qed.

(** A non-greedy repetition stops at the first position where the rest
    of the pattern matches. *)
Lemma star_lazy_inv {A} a (s : str) (k : str → option A) x :
  star_lazy f a s k = Some x →
  ∃ pre s', s = pre ++ s' ∧ k s' = Some x
            ∧ ∀ p1 p2, pre = p1 ++ p2 → p2 ≠ [] → k (p2 ++ s') = None.
Proof.
  induction s as [|c s IH]; simpl.
  - destruct (k []) eqn:E; [|done]. intros [= ->].
    exists [], []. split; [done|]. split; [done|].
    intros p1 p2 Hp Hne. symmetry in Hp. apply app_eq_nil in Hp as [_ ->]. done.
  - destruct (k (c :: s)) eqn:E.
    + intros [= ->]. exists [], (c :: s). split; [done|]. split; [done|].
      intros p1 p2 Hp Hne. symmetry in Hp. apply app_eq_nil in Hp as [_ ->]. done.
    + destruct (atom_matches f a c); [|done].
      intros H. destruct (IH H) as [pre [s' [-> [Hk Hmin]]]].
      exists (c :: pre), s'. split; [done|]. split; [done|].
      intros p1 p2 Hp Hne. destruct p1 as [|c1 p1]; simpl in Hp.
      * subst p2. exact E.
      * injection Hp as -> ->. by apply (Hmin p1 p2).
Qed.

(** A successful match ends in a successful call of the rest of the
    pattern, somewhere further in the text; without groups on the way
    the groups are handed over unchanged. *)
Lemma match_re_inv r : ∀ (s : str) caps k c,
  match_re f r s caps k = Some c →
  ∃ s' caps', k s' caps' = Some c ∧ s' `suffix_of` s
              ∧ (group_free r = true → caps' = caps).
Proof.
  induction r as [|a|a|a|r1 IH1 r2 IH2|r1 IH1 r2 IH2|n r IH|r IH|];
    intros s caps k c; simpl.
  - intros H. by exists s, caps.
  - destruct s as [|d s]; [done|]. destruct (atom_matches f a d); [|done].
    intros H. exists s, caps. split; [done|]. split; [|done].
    by apply suffix_cons_r.
  - intros H. apply star_greedy_inv in H as [s' [Hk Hs]]. by exists s', caps.
  - intros H. apply star_lazy_inv in H as [pre [s' [-> [Hk _]]]].
    exists s', caps. split; [done|]. split; [|done]. by apply suffix_app_r.
  - intros H. apply IH1 in H as [s1 [caps1 [H [Hs1 Hc1]]]].
    apply IH2 in H as [s2 [caps2 [H [Hs2 Hc2]]]].
    exists s2, caps2. split; [done|]. split; [by etrans|].
    intros [G1 G2]%andb_true_iff. rewrite Hc2, Hc1; done.
  - destruct (match_re f r1 s caps k) eqn:E.
    + intros [= ->]. apply IH1 in E as [s1 [caps1 [H [Hs1 Hc1]]]].
      exists s1, caps1. split; [done|]. split; [done|].
      intros [G1 G2]%andb_true_iff. auto.
    + intros H. apply IH2 in H as [s2 [caps2 [H [Hs2 Hc2]]]].
      exists s2, caps2. split; [done|]. split; [done|].
      intros [G1 G2]%andb_true_iff. auto.
  - intros H. apply IH in H as [s1 [caps1 [H [Hs1 Hc1]]]].
    exists s1, (<[n:=consumed s s1]> caps1). done.
  - destruct (match_re f r s caps (λ _ caps', Some caps')) eqn:E; [|done].
    intros H. apply IH in E as [s1 [caps1 [[= ->] [Hs1 Hc1]]]].
    exists s, c0. split; [done|]. split; [done|]. exact Hc1.
  - destruct (at_dollar s); [|done]. intros H. by exists s, caps.
Qed.

(** A pattern that matches before some continuation matches before
    every continuation that accepts at least as often. *)
Lemma star_greedy_mono {A B} a (s : str) (k : str → option A) (k' : str → option B) :
  (∀ s', is_Some (k s') → is_Some (k' s')) →
  is_Some (star_greedy f a s k) → is_Some (star_greedy f a s k').
Proof.
  intros Hk. induction s as [|c s IH]; simpl; [apply Hk|].
  destruct (atom_matches f a c); [|apply Hk].
  destruct (star_greedy f a s k) eqn:E.
  - intros _. destruct (IH (mk_is_Some _ _ eq_refl)) as [y ->]. done.
  - intros H. destruct (star_greedy f a s k'); [done|]. by apply Hk.
Qed.

Lemma star_lazy_mono {A B} a (s : str) (k : str → option A) (k' : str → option B) :
  (∀ s', is_Some (k s') → is_Some (k' s')) →
  is_Some (star_lazy f a s k) → is_Some (star_lazy f a s k').
Proof.
  intros Hk. induction s as [|c s IH]; simpl.
  - destruct (k []) eqn:E; [|by intros [? ?]].
    intros _. destruct (Hk [] (ltac:(by rewrite E))) as [y ->]. done.
  - destruct (k (c :: s)) eqn:E.
    + intros _. destruct (Hk (c :: s) (ltac:(by rewrite E))) as [y ->]. done.
    + destruct (k' (c :: s)); [done|].
      destruct (atom_matches f a c); [apply IH | done].
Qed.

Lemma match_re_mono r : ∀ (s : str) caps k k',
  (∀ s' c, is_Some (k s' c) → is_Some (k' s' c)) →
  is_Some (match_re f r s caps k) → is_Some (match_re f r s caps k').
Proof.
  induction r as [|a|a|a|r1 IH1 r2 IH2|r1 IH1 r2 IH2|n r IH|r IH|];
    intros s caps k k' Hk; simpl.
  - apply Hk.
  - destruct s as [|d s]; [done|]. destruct (atom_matches f a d); [apply Hk|done].
  - apply star_greedy_mono. intros s'. apply Hk.
  - apply star_lazy_mono. intros s'. apply Hk.
  - apply IH1. intros s' c. by apply IH2.
  - destruct (match_re f r1 s caps k) eqn:E.
    + intros _.
      destruct (IH1 s caps k k' Hk (ltac:(by rewrite E))) as [y ->]. done.
    + intros H. destruct (match_re f r1 s caps k'); [done|]. by apply (IH2 s caps k).
  - apply IH. intros s' c. apply Hk.
  - destruct (match_re f r s caps (λ _ caps', Some caps')); [apply Hk|done].
  - destruct (at_dollar s); [apply Hk|done].
Qed.

Lemma match_re_alt r1 r2 (s : str) caps k :
  match_re f (Alt r1 r2) s caps k
  = match match_re f r1 s caps k with
    | Some c => Some c
    | None => match_re f r2 s caps k
    end.
Proof. reflexivity. Qed.

Lemma search_inv r (s : str) m :
  search f r s = Some m → ∃ s0, s0 `suffix_of` s ∧ match_here f r s0 = Some m.
Proof.
  induction s as [|c s IH]; simpl.
  - destruct (match_here f r []) eqn:E; [|done]. intros [= ->]. by exists [].
  - destruct (match_here f r (c :: s)) eqn:E.
    + intros [= ->]. by exists (c :: s).
    + intros H. destruct (IH H) as [s0 [Hs0 Hm]]. exists s0.
      split; [by apply suffix_cons_r | done].
Qed.

Lemma search_complete r (a s0 : str) :
  is_Some (match_here f r s0) → is_Some (search f r (a ++ s0)).
Proof.
  intros H. induction a as [|c a IH]; simpl.
  - destruct s0 as [|d s0]; simpl; destruct H as [m ->]; done.
  - destruct (match_here f r (c :: a ++ s0)); [done | exact IH].
Qed.

(** A pattern that starts with [r1] is found only where [r1] is. *)
Lemma search_cat_none r1 r2 (s : str) :
  search f r1 s = None → search f (Cat r1 r2) s = None.
Proof.
  induction s as [|c s IH]; simpl.
  - destruct (match_here f r1 []) eqn:E; [done|]. intros _.
    destruct (match_here f (Cat r1 r2) []) eqn:E2; [|done].
    assert (is_Some (match_here f r1 [])) as [? ?]; [|congruence].
    unfold match_here in *. simpl in E2.
    eapply match_re_mono; [|by rewrite E2]. done.
  - destruct (match_here f r1 (c :: s)) eqn:E; [done|]. intros H.
    destruct (match_here f (Cat r1 r2) (c :: s)) eqn:E2; [|by apply IH].
    assert (is_Some (match_here f r1 (c :: s))) as [? ?]; [|congruence].
    unfold match_here in *. simpl in E2.
    eapply match_re_mono; [|by rewrite E2]. done.
Qed.

End MatcherFacts.

(* ===================================================================== *)
(** * Facts about the response parser *)
(* ===================================================================== *)

Section ParserFacts.

(** Each label pattern matches its header as the prompt spells it. *)
Lemma corrected_label_matches rest caps k :
  match_re re_flags corrected_label (CORRECTED_DIARY ++ rest) caps k = k rest caps.
Proof. vm_compute. by destruct (k rest caps). Qed.

Lemma feedback_label_matches rest caps k :
  match_re re_flags feedback_label (FEEDBACK ++ rest) caps k = k rest caps.
Proof. vm_compute. reflexivity. Qed.

Lemma summary_label_matches rest caps k :
  match_re re_flags summary_label (KOREAN_SUMMARY ++ rest) caps k = k rest caps.
Proof. vm_compute. by destruct (k rest caps). Qed.

Lemma consumed_app (pre s' : str) : consumed (pre ++ s') s' = pre.
Proof.
  unfold consumed. rewrite length_app.
  replace (length pre + length s' - length s')%nat with (length pre) by lia.
  by rewrite take_app_length.
Qed.

(** The shape of the first two patterns: a label, blanks, a group that
    takes as little as it can, and a lookahead. The group ends at the
    first position where the lookahead matches. *)
Lemma lazy_section label la (text : str) m :
  group_free la = true →
  search re_flags (label ⋅ ws* ⋅ Group 1 (LazyStar Dot) ⋅ Lookahead la)%re text = Some m →
  ∃ pre post,
    group m 1 = Some pre ∧
    ∀ p1 p2, pre = p1 ++ p2 → p2 ≠ [] →
      ∃ caps0, match_re re_flags la (p2 ++ post) caps0 (λ _ c, Some c) = None.
Proof.
  intros Hla H. apply search_inv in H as [s0 [_ H]].
  unfold match_here in H. simpl in H.
  apply match_re_inv in H as [s1 [caps1 [H _]]].
  apply star_greedy_inv in H as [s2 [H _]].
  apply star_lazy_inv in H as [pre [post [-> [H Hmin]]]].
  exists pre, post. split.
  - destruct (match_re re_flags la post _ _) eqn:E; [|done].
    injection H as ->.
    apply match_re_inv in E as [s3 [caps3 [[= ->] [_ Hc]]]].
    rewrite (Hc Hla). unfold group. rewrite consumed_app. apply lookup_insert_eq.
  - intros p1 p2 Hp Hne. specialize (Hmin p1 p2 Hp Hne). simpl in Hmin.
    eexists. destruct (match_re re_flags la (p2 ++ post) _ _) eqn:E; [done|].
    exact E.
Qed.

Lemma lazy_section_excludes label la (text L : str) m :
  group_free la = true →
  (∀ rest caps, match_re re_flags la (L ++ rest) caps (λ _ c, Some c) ≠ None) →
  L ≠ [] →
  search re_flags (label ⋅ ws* ⋅ Group 1 (LazyStar Dot) ⋅ Lookahead la)%re text = Some m →
  contains L (default [] (group m 1)) = false.
Proof.
  intros Hla HL Hne H.
  destruct (lazy_section label la text m Hla H) as [pre [post [-> Hmin]]].
  simpl. destruct (contains L pre) eqn:E; [|done].
  apply contains_spec in E as [a [b ->]].
  destruct (Hmin a (L ++ b) eq_refl) as [caps0 Hc].
  - destruct L; [done|]. done.
  - rewrite <- app_assoc in Hc. by apply HL in Hc.
Qed.

Lemma extract_feedback_no_summary (text : str) :
  contains KOREAN_SUMMARY (extract feedback_pattern text) = false.
Proof.
  unfold extract. destruct (search _ _ _) eqn:E; [|done].
  apply contains_strip.
  revert E. apply lazy_section_excludes; [done| |done].
  intros rest caps. rewrite match_re_alt, summary_label_matches. done.
Qed.

Lemma extract_corrected_no_feedback (text : str) :
  contains FEEDBACK (extract corrected_pattern text) = false.
Proof.
  unfold extract. destruct (search _ _ _) eqn:E; [|done].
  apply contains_strip.
  revert E. apply lazy_section_excludes; [done| |done].
  intros rest caps. rewrite match_re_alt, feedback_label_matches. done.
Qed.

Lemma extract_corrected_no_summary (text : str) :
  contains KOREAN_SUMMARY (extract corrected_pattern text) = false.
Proof.
  unfold extract. destruct (search _ _ _) eqn:E; [|done].
  apply contains_strip.
  revert E. apply lazy_section_excludes; [done| |done].
  intros rest caps. rewrite match_re_alt.
  destruct (match_re re_flags feedback_label _ _ _); [done|].
  rewrite match_re_alt, summary_label_matches. done.
Qed.

Lemma extract_trimmed pattern (text : str) :
  strip (extract pattern text) = extract pattern text.
Proof.
  unfold extract. destruct (search _ _ _); [apply strip_idemp | done].
Qed.

(** Where the label of a pattern is found nowhere, nothing is extracted. *)
Lemma extract_without_label label tail (text : str) :
  search re_flags label text = None → extract (label ⋅ tail)%re text = [].
Proof.
  intros H. unfold extract. by rewrite (search_cat_none _ _ _ _ H).
Qed.

(** The three extractions, as the loop stores them. *)
Lemma extract_all_get (text : str) :
  get (extract_all text) "corrected_diary" = extract corrected_pattern text
  ∧ get (extract_all text) "feedback_en" = extract feedback_pattern text
  ∧ get (extract_all text) "summary_ko" = extract summary_pattern text.
Proof. unfold extract_all, get. simpl. by simplify_map_eq. Qed.

Lemma parse_fields (text : str) :
  get (parse_feedback_response text) "corrected_diary"
    = (if all_empty text then strip text else extract corrected_pattern text)
  ∧ get (parse_feedback_response text) "feedback_en" = extract feedback_pattern text
  ∧ get (parse_feedback_response text) "summary_ko" = extract summary_pattern text.
Proof.
  destruct (extract_all_get text) as (H1 & H2 & H3).
  unfold parse_feedback_response, all_empty. rewrite H1, H2, H3.
  destruct (_ && _ && _).
  - unfold get in *. by simplify_map_eq.
  - done.
Qed.

Lemma match_re_cat r1 r2 (s : str) caps k :
  match_re re_flags (Cat r1 r2) s caps k
  = match_re re_flags r1 s caps (λ s' caps', match_re re_flags r2 s' caps' k).
Proof. reflexivity. Qed.

Lemma star_greedy_total {A} a (s : str) (k : str → option A) :
  (∀ s', is_Some (k s')) → is_Some (star_greedy re_flags a s k).
Proof.
  intros Hk. induction s as [|c s IH]; simpl; [done|].
  destruct (atom_matches re_flags a c); [|done].
  destruct IH as [x ->]. done.
Qed.

Lemma star_lazy_dot_total {A} (s : str) (k : str → option A) :
  is_Some (k []) → is_Some (star_lazy re_flags Dot s k).
Proof.
  intros Hk. induction s as [|c s IH]; simpl.
  - destruct Hk as [x ->]. done.
  - destruct (k (c :: s)); [done | exact IH].
Qed.

Lemma star_greedy_dot_total {A} (s : str) (k : str → option A) :
  is_Some (k []) → is_Some (star_greedy re_flags Dot s k).
Proof.
  intros Hk. induction s as [|c s IH]; simpl; [done|].
  destruct IH as [x ->]. done.
Qed.

(** After its label, each pattern matches whatever follows: the group
    can always run to the end of the text. *)
Lemma lazy_tail_total la (s : str) caps :
  (∀ caps', is_Some (match_re re_flags (Lookahead la) [] caps' (λ _ c, Some c))) →
  is_Some (match_re re_flags (ws* ⋅ Group 1 (LazyStar Dot) ⋅ Lookahead la)%re
             s caps (λ _ c, Some c)).
Proof.
  intros Hla. rewrite match_re_cat. apply star_greedy_total. intros s'.
  rewrite match_re_cat. apply star_lazy_dot_total. apply Hla.
Qed.

Lemma greedy_tail_total (s : str) caps :
  is_Some (match_re re_flags (ws* ⋅ Group 1 (Star Dot) ⋅ Dollar)%re
             s caps (λ _ c, Some c)).
Proof.
  rewrite match_re_cat. apply star_greedy_total. intros s'.
  rewrite match_re_cat. apply star_greedy_dot_total. done.
Qed.

Lemma corrected_found (a rest : str) :
  is_Some (search re_flags corrected_pattern (a ++ CORRECTED_DIARY ++ rest)).
Proof.
  apply search_complete. unfold match_here, corrected_pattern.
  rewrite match_re_cat, corrected_label_matches.
  apply lazy_tail_total. done.
Qed.

Lemma feedback_found (a rest : str) :
  is_Some (search re_flags feedback_pattern (a ++ FEEDBACK ++ rest)).
Proof.
  apply search_complete. unfold match_here, feedback_pattern.
  rewrite match_re_cat, feedback_label_matches.
  apply lazy_tail_total. done.
Qed.

Lemma summary_found (a rest : str) :
  is_Some (search re_flags summary_pattern (a ++ KOREAN_SUMMARY ++ rest)).
Proof.
  apply search_complete. unfold match_here, summary_pattern.
  rewrite match_re_cat, summary_label_matches.
  apply greedy_tail_total.
Qed.

End ParserFacts.

(** ** The claims on the parser *)

(** C3. On the text "Corrected Diary: I am fine.", newline, "Feedback:
    Good job!", newline, "Korean Summary: 좋아요." the parser gives
    corrected_diary "I am fine.", feedback_en "Good job!" and summary_ko
    "좋아요.". *)
Theorem parse_scenario :
  let parsed :=
    parse_feedback_response
      (lit "Corrected Diary: I am fine." ++ [LF] ++ lit "Feedback: Good job!" ++ [LF]
         ++ lit "Korean Summary: 좋아요.") in
  get parsed "corrected_diary" = lit "I am fine."
  ∧ get parsed "feedback_en" = lit "Good job!"
  ∧ get parsed "summary_ko" = lit "좋아요.".
Proof. vm_compute. done. Qed.

(** C2, as the claim states it, fails: when the three headers follow one
    another with nothing but blanks between and after them, the three
    extractions are empty, the fallback puts the whole text into
    corrected_diary, and that field holds the next header. *)
Lemma parse_labelled_all_empty :
  let text := CORRECTED_DIARY ++ [LF] ++ FEEDBACK ++ [LF] ++ KOREAN_SUMMARY ++ [LF] in
  (∃ a b c d, text = a ++ CORRECTED_DIARY ++ b ++ FEEDBACK ++ c ++ KOREAN_SUMMARY ++ d)
  ∧ contains FEEDBACK (get (parse_feedback_response text) "corrected_diary") = true.
Proof.
  split.
  - by exists [], [LF], [LF], [LF].
  - vm_compute. done.
Qed.

(** C2, amended. For a text that holds the three headers "Corrected
    Diary:", "Feedback:", "Korean Summary:" in this order, each of the
    three patterns finds a match, each returned field is trimmed,
    feedback_en never holds "Korean Summary:", and corrected_diary holds
    neither "Feedback:" nor "Korean Summary:" unless all three
    extractions are empty, in which case it is the whole trimmed text. *)
Theorem parse_labelled (text a b c d : str) :
  text = a ++ CORRECTED_DIARY ++ b ++ FEEDBACK ++ c ++ KOREAN_SUMMARY ++ d →
  let parsed := parse_feedback_response text in
  (is_Some (search re_flags corrected_pattern text)
   ∧ is_Some (search re_flags feedback_pattern text)
   ∧ is_Some (search re_flags summary_pattern text))
  ∧ (strip (get parsed "corrected_diary") = get parsed "corrected_diary"
     ∧ strip (get parsed "feedback_en") = get parsed "feedback_en"
     ∧ strip (get parsed "summary_ko") = get parsed "summary_ko")
  ∧ contains KOREAN_SUMMARY (get parsed "feedback_en") = false
  ∧ (if all_empty text
     then get parsed "corrected_diary" = strip text
     else contains FEEDBACK (get parsed "corrected_diary") = false
          ∧ contains KOREAN_SUMMARY (get parsed "corrected_diary") = false).
Proof.
  intros Htext parsed. subst parsed.
  destruct (parse_fields text) as (H1 & H2 & H3). rewrite H1, H2, H3.
  split; [|split; [|split]].
  - subst text. split; [apply corrected_found|]. split.
    + rewrite (app_assoc a), (app_assoc (a ++ _)). apply feedback_found.
    + rewrite (app_assoc a), (app_assoc (a ++ _)), (app_assoc ((a ++ _) ++ _)),
        (app_assoc (((a ++ _) ++ _) ++ _)). apply summary_found.
  - split; [|split; apply extract_trimmed].
    destruct (all_empty text); [apply strip_idemp | apply extract_trimmed].
  - apply extract_feedback_no_summary.
  - destruct (all_empty text); [done|].
    split; [apply extract_corrected_no_feedback | apply extract_corrected_no_summary].
Qed.

Lemma parse_labelled_witness :
  let text := lit "Corrected Diary: I am fine." ++ [LF] ++ lit "Feedback: Good job!"
                ++ [LF] ++ lit "Korean Summary: ok" in
  text = [] ++ CORRECTED_DIARY ++ (lit " I am fine." ++ [LF]) ++ FEEDBACK
           ++ (lit " Good job!" ++ [LF]) ++ KOREAN_SUMMARY ++ lit " ok"
  ∧ contains FEEDBACK (get (parse_feedback_response text) "corrected_diary") = false.
Proof.
  split; [reflexivity|].
  pose proof (parse_labelled
    (lit "Corrected Diary: I am fine." ++ [LF] ++ lit "Feedback: Good job!"
       ++ [LF] ++ lit "Korean Summary: ok")
    [] (lit " I am fine." ++ [LF]) (lit " Good job!" ++ [LF]) (lit " ok") eq_refl)
    as (_ & _ & _ & H).
  exact (proj1 H).
Defined.

(** C4, as the claim states it, fails: a text can hold none of the three
    headers and still be split, because the patterns accept blanks
    before the colon (and any case of the letters). *)
Lemma parse_unlabelled_split :
  let text := lit "Feedback : Good job!" in
  (contains CORRECTED_DIARY text = false
   ∧ contains FEEDBACK text = false
   ∧ contains KOREAN_SUMMARY text = false)
  ∧ get (parse_feedback_response text) "corrected_diary" ≠ strip text
  ∧ get (parse_feedback_response text) "feedback_en" ≠ [].
Proof. vm_compute. repeat split; done. Qed.

(** C4, amended. For a text in which no label pattern matches anywhere
    (the header words in any case, with any blanks between them and
    before the colon), corrected_diary is the trimmed text and the two
    other fields are empty. For every text, the fallback puts the
    trimmed text into corrected_diary exactly when the three
    extractions are all empty; otherwise the three fields are the three
    extractions. *)
Theorem parse_fallback :
  (∀ text : str, label_free text →
     get (parse_feedback_response text) "corrected_diary" = strip text
     ∧ get (parse_feedback_response text) "feedback_en" = []
     ∧ get (parse_feedback_response text) "summary_ko" = [])
  ∧ (∀ text : str,
       get (parse_feedback_response text) "corrected_diary"
         = (if all_empty text then strip text else extract corrected_pattern text)
       ∧ get (parse_feedback_response text) "feedback_en" = extract feedback_pattern text
       ∧ get (parse_feedback_response text) "summary_ko" = extract summary_pattern text).
Proof.
  split; [|apply parse_fields].
  intros text (Hc & Hf & Hs).
  destruct (parse_fields text) as (H1 & H2 & H3). rewrite H1, H2, H3.
  unfold all_empty, corrected_pattern, feedback_pattern, summary_pattern.
  rewrite (extract_without_label corrected_label _ text Hc).
  rewrite (extract_without_label feedback_label _ text Hf).
  rewrite (extract_without_label summary_label _ text Hs).
  done.
Qed.

Lemma parse_fallback_witness :
  label_free (lit "  I am happy today. ")
  ∧ get (parse_feedback_response (lit "  I am happy today. ")) "corrected_diary"
    = lit "I am happy today.".
Proof.
  split.
  - vm_compute. done.
  - exact (proj1 (proj1 parse_fallback (lit "  I am happy today. ")
                    ltac:(vm_compute; done))).
Defined.

(* ===================================================================== *)
(** * Facts about frames *)
(* ===================================================================== *)

Section FrameFacts.
Implicit Types (cs : list (str * list cell)) (col c : str) (df : DataFrame).

Lemma find_column_nil col : find_column [] col = None.
Proof. done. Qed.

Lemma find_column_cons c v cs col :
  find_column ((c, v) :: cs) col
  = if decide (c = col) then Some v else find_column cs col.
Proof.
  unfold find_column. rewrite filter_cons. simpl.
  destruct (decide (c = col)); done.
Qed.

Lemma find_column_app cs cs' col :
  find_column (cs ++ cs') col
  = match find_column cs col with
    | Some v => Some v
    | None => find_column cs' col
    end.
Proof.
  induction cs as [|[c v] cs IH]; [done|].
  simpl. rewrite !find_column_cons. destruct (decide (c = col)); done.
Qed.

Lemma find_column_None cs col : find_column cs col = None ↔ col ∉ cs.*1.
Proof.
  induction cs as [|[c v] cs IH]; simpl.
  - split; [intros _; apply not_elem_of_nil | done].
  - rewrite find_column_cons, not_elem_of_cons. destruct (decide (c = col)).
    + split; [done | intros [? _]; congruence].
    + rewrite IH. split; [intros ?; split; [congruence | done] | intros [_ ?]; done].
Qed.

Lemma find_column_is_Some cs col : is_Some (find_column cs col) ↔ col ∈ cs.*1.
Proof.
  destruct (find_column cs col) eqn:E.
  - split; [intros _ | by eauto].
    destruct (decide (col ∈ cs.*1)) as [|Hn]; [done|].
    apply find_column_None in Hn. congruence.
  - split; [by intros [? ?] | intros Hin].
    apply find_column_None in E. done.
Qed.

(** With distinct labels, a label selects at most one column. *)
Lemma filter_label_nodup cs col :
  NoDup cs.*1 →
  filter (λ lc, lc.1 = col) cs
  = match find_column cs col with
    | Some v => [(col, v)]
    | None => []
    end.
Proof.
  induction cs as [|[c v] cs IH]; [done|].
  intros [Hc Hnd]%NoDup_cons. rewrite find_column_cons, filter_cons. simpl in *.
  destruct (decide (c = col)) as [->|Hne].
  - rewrite (IH Hnd). apply find_column_None in Hc. by rewrite Hc.
  - by apply IH.
Qed.

Lemma getitem_columns_nodup cs (cols : list str) :
  NoDup cs.*1 →
  (∀ col, col ∈ cols → col ∈ cs.*1) →
  getitem_columns cs cols
  = Ok ((λ col, (col, default [] (find_column cs col))) <$> cols).
Proof.
  intros Hnd. induction cols as [|col cols IH]; intros Hin; [done|].
  simpl. rewrite (filter_label_nodup _ _ Hnd).
  assert (is_Some (find_column cs col)) as [v Hv].
  { apply find_column_is_Some, Hin. by left. }
  rewrite Hv. rewrite IH.
  - done.
  - intros c Hc. apply Hin. by right.
Qed.

Lemma fill_step_spec df col :
  NoDup (labels df) →
  nrows (fill_step df col) = nrows df
  ∧ NoDup (labels (fill_step df col))
  ∧ (∀ c, c ∈ labels (fill_step df col) ↔ c ∈ labels df ∨ c = col)
  ∧ (∀ c, column (fill_step df col) c
          = match column df c with
            | Some v => Some v
            | None => if decide (col = c)
                      then Some (replicate (nrows df) (Str [])) else None
            end).
Proof.
  intros Hnd. unfold fill_step, has_column.
  destruct (decide (col ∈ labels df)) as [Hin|Hout].
  - rewrite bool_decide_eq_true_2 by done. simpl.
    split; [done|]. split; [done|]. split.
    + intros c. split; [by left | intros [?| ->]; done].
    + intros c. destruct (column df c) eqn:E; [done|].
      destruct (decide (col = c)) as [->|]; [|done].
      apply find_column_None in E. done.
  - rewrite bool_decide_eq_false_2 by done. simpl.
    unfold setitem, has_column, labels, column. simpl.
    rewrite bool_decide_eq_false_2 by done. simpl.
    split; [done|]. split; [|split].
    + rewrite fmap_app. simpl. apply NoDup_app. split; [done|].
      split; [|apply NoDup_singleton].
      intros x Hx ->%list_elem_of_singleton. done.
    + intros c. rewrite fmap_app, elem_of_app. simpl.
      rewrite list_elem_of_singleton. done.
    + intros c. rewrite find_column_app, find_column_cons. done.
Qed.

Lemma fill_missing_spec (cols : list str) : ∀ df,
  NoDup (labels df) →
  let df' := foldl fill_step df cols in
  nrows df' = nrows df
  ∧ NoDup (labels df')
  ∧ (∀ c, c ∈ labels df' ↔ c ∈ labels df ∨ c ∈ cols)
  ∧ (∀ c, column df' c
          = match column df c with
            | Some v => Some v
            | None => if decide (c ∈ cols)
                      then Some (replicate (nrows df) (Str [])) else None
            end).
Proof.
  induction cols as [|col cols IH]; intros df Hnd; simpl.
  - split; [done|]. split; [done|]. split.
    + intros c. split; [by left | intros [?|?%elem_of_nil]; done].
    + intros c. by destruct (column df c).
  - destruct (fill_step_spec df col Hnd) as (Hn & Hnd1 & Hin1 & Hc1).
    destruct (IH (fill_step df col) Hnd1) as (Hn2 & Hnd2 & Hin2 & Hc2).
    split; [congruence|]. split; [done|]. split.
    + intros c. rewrite Hin2, Hin1, elem_of_cons. tauto.
    + intros c. rewrite Hc2, Hc1, Hn. destruct (column df c); [done|].
      destruct (decide (col = c)) as [->|Hne].
      * rewrite decide_True; [done | by left].
      * destruct (decide (c ∈ cols)).
        -- rewrite decide_True; [done | by right].
        -- rewrite decide_False; [done|].
           intros [?|?]%elem_of_cons; congruence.
Qed.

Lemma normalize_cols (cols : list str) df :
  NoDup (labels df) →
  getitem (foldl fill_step df cols) cols
  = Ok {| nrows := nrows df;
          columns :=
            (λ col, (col, default (replicate (nrows df) (Str [])) (column df col)))
              <$> cols |}.
Proof.
  intros Hnd.
  destruct (fill_missing_spec cols df Hnd) as (Hn & Hnd' & Hin & Hc).
  unfold getitem. rewrite (getitem_columns_nodup _ _ Hnd').
  - cbn [bind]. rewrite Hn. do 2 f_equal.
    apply list_fmap_ext. intros i col Hi. f_equal.
    fold (column (foldl fill_step df cols) col).
    rewrite Hc. destruct (column df col); [done|].
    rewrite decide_True; [done|]. by eapply list_elem_of_lookup_2.
  - intros col Hcol. apply Hin. by right.
Qed.

(** What [load_diary_csv] makes of a frame with distinct labels: the
    expected columns, in order; a column the frame has is kept, a
    column it lacks is filled with empty strings. *)
Lemma normalize_spec df :
  NoDup (labels df) →
  getitem (fill_missing df) expected_cols
  = Ok {| nrows := nrows df;
          columns :=
            (λ col, (col, default (replicate (nrows df) (Str [])) (column df col)))
              <$> expected_cols |}.
Proof. unfold fill_missing. apply normalize_cols. Qed.

Lemma find_column_fmap (g : str → list cell) (cols : list str) col :
  find_column ((λ c, (c, g c)) <$> cols) col
  = if decide (col ∈ cols) then Some (g col) else None.
Proof.
  induction cols as [|c cols IH]; [done|].
  rewrite fmap_cons, find_column_cons, IH.
  destruct (decide (c = col)) as [->|Hne].
  - rewrite decide_True; [done | by left].
  - destruct (decide (col ∈ cols)).
    + rewrite decide_True; [done | by right].
    + rewrite decide_False; [done|]. intros [?|?]%elem_of_cons; congruence.
Qed.

Lemma fmap_pair_fst (g : str → list cell) (cols : list str) :
  ((λ c, (c, g c)) <$> cols).*1 = cols.
Proof. induction cols as [|c cols IH]; [done|]. rewrite !fmap_cons. by f_equal. Qed.

End FrameFacts.

(* ===================================================================== *)
(** * Writing a row and reading it back *)
(* ===================================================================== *)

Section CsvFacts.

Local Abbreviation T st wd fs ls := (Build_tokenizer st wd fs ls false).
Local Abbreviation run := (foldl tokenize_step).

















Lemma holds_cons (c d : char) (s : str) :
  holds c (d :: s) = (d =? c) || holds c s.
Proof. reflexivity. Qed.







End CsvFacts.

(* ===================================================================== *)
(** * Facts about the labels given by [read_csv] *)
(* ===================================================================== *)

Section LabelFacts.
Implicit Types (counts : gmap (list N) nat) (names : list (list N)).

Lemma count_insert counts (k c : str) (v : nat) :
  count (<[k := v]> counts) c = if decide (k = c) then v else count counts c.
Proof.
  unfold count. destruct (decide (k = c)) as [->|Hne].
  - by rewrite lookup_insert_eq.
  - by rewrite lookup_insert_ne.
Qed.

(** The renaming loop only raises counts that were positive. *)
Lemma dedup_loop_positive rounds : ∀ counts (col c : str),
  (0 < count (dedup_loop rounds counts col).1 c ↔ 0 < count counts c)%nat.
Proof.
  induction rounds as [|rounds IH]; intros counts col c; simpl; [done|].
  destruct (0 <? count counts col)%nat eqn:E; [|done].
  rewrite IH, count_insert. apply Nat.ltb_lt in E.
  destruct (decide (col = c)) as [->|]; [|done]. split; [done | lia].
Qed.

(** With rounds enough to outgrow every label given out, the loop
    ends on a label that is new. *)
Lemma dedup_loop_fresh rounds : ∀ counts (col : str) (bound : nat),
  (∀ c, (0 < count counts c)%nat → (length c ≤ bound)%nat) →
  (bound < length col + rounds)%nat →
  count (dedup_loop rounds counts col).1 (dedup_loop rounds counts col).2 = O.
Proof.
  induction rounds as [|rounds IH]; intros counts col bound Hb Hlt; simpl.
  - destruct (count counts col) eqn:E; [done|].
    assert (length col ≤ bound)%nat by (apply Hb; lia). lia.
  - destruct (0 <? count counts col)%nat eqn:E.
    + apply Nat.ltb_lt in E. apply (IH _ _ bound).
      * intros c. rewrite count_insert.
        destruct (decide (col = c)) as [<-|]; [|apply Hb].
        intros _. by apply Hb.
      * rewrite length_app. simpl. lia.
    + apply Nat.ltb_ge in E. simpl. lia.
Qed.

Lemma dedup_step_inv acc (col : str) :
  dedup_inv acc → dedup_inv (dedup_step acc col).
Proof.
  destruct acc as [counts names]. intros [Hnd Hpos]. cbn [fst snd] in *.
  unfold dedup_step.
  set (bound := max_list (length <$> names)).
  pose proof (dedup_loop_positive (S bound) counts col) as Hp.
  pose proof (dedup_loop_fresh (S bound) counts col bound) as Hf.
  destruct (dedup_loop (S bound) counts col) as [counts' col'] eqn:E.
  cbn [fst snd] in *.
  assert (count counts' col' = O) as Hfresh.
  { apply Hf; [|lia]. intros c Hc. apply max_list_elem_of_le.
    apply list_elem_of_fmap. exists c. split; [done|]. by apply Hpos. }
  assert (col' ∉ names) as Hnew.
  { intros Hin. apply Hpos, Hp in Hin. lia. }
  split; cbn [fst snd].
  - apply NoDup_app. split; [done|]. split; [|apply NoDup_singleton].
    intros x Hx ->%list_elem_of_singleton. done.
  - intros c. rewrite count_insert, elem_of_app, list_elem_of_singleton.
    destruct (decide (col' = c)) as [->|Hne].
    + split; [by right | lia].
    + rewrite Hp, Hpos. split; [by left | intros [?|?]; [done | congruence]].
Qed.

Lemma dedup_fold_inv names : ∀ acc,
  dedup_inv acc → dedup_inv (foldl dedup_step acc names).
Proof.
  induction names as [|col names IH]; intros acc H; [done|].
  simpl. by apply IH, dedup_step_inv.
Qed.

Lemma dedup_names_NoDup names : NoDup (dedup_names names).
Proof.
  unfold dedup_names.
  apply (dedup_fold_inv names (∅, [])). split; simpl.
  - apply NoDup_nil_2.
  - intros c. unfold count. rewrite lookup_empty. simpl.
    split; [lia | by intros ?%elem_of_nil].
Qed.

(** The labels [read_csv] gives to the columns are distinct. *)
Lemma label_columns_NoDup (header : list str) : NoDup (label_columns header).
Proof. apply dedup_names_NoDup. Qed.

Lemma imap_fst {B} (g : nat → str → B) (l : list str) :
  (imap (λ j name, (name, g j name)) l).*1 = l.
Proof.
  revert g. induction l as [|x l IH]; intros g; [done|].
  simpl. f_equal. apply (IH (g ∘ S)).
Qed.

(** A frame that [read_csv] gives is built from the lines of the file. *)
Lemma read_csv_Ok_inv (content : str) df :
  read_csv content = Ok df →
  ∃ header data, tokenize (strip_bom content) = Some (header :: data)
                 ∧ build_frame header data = Ok df.
Proof.
  unfold read_csv, tokenize. cbv zeta.
  destruct (holds NUL content); [done|].
  destruct (resumed _ && _); [done|].
  destruct (handle_eof _) as [[|header data]|]; [done| |done].
  intros H. by exists header, data.
Qed.

(** [read_csv] on a file without NUL on which the tokenizer does not
    step back. *)
Lemma read_csv_modelled (content : str) :
  holds NUL content = false →
  resumed (tokenizer_run (strip_bom content)) = false →
  read_csv content
  = match tokenize (strip_bom content) with
    | None => Raise ParserError
    | Some [] => Raise EmptyDataError
    | Some (header :: data) => build_frame header data
    end.
Proof. intros H1 H2. unfold read_csv, tokenize. cbv zeta. by rewrite H1, H2. Qed.

Lemma read_csv_labels_NoDup (content : str) df :
  read_csv content = Ok df → NoDup (labels df).
Proof.
  intros (header & data & _ & H)%read_csv_Ok_inv. revert H.
  unfold build_frame. destruct (existsb _ _); [done|]. intros [= <-].
  unfold labels. cbn [columns]. rewrite imap_fst. apply label_columns_NoDup.
Qed.

End LabelFacts.

(* ===================================================================== *)
(** * Facts about the record store *)
(* ===================================================================== *)

Section StoreFacts.

Lemma path_exists_None (fs : filesystem) path :
  fs !! path = None → path_exists fs path = false.
Proof.
  intros H. unfold path_exists. apply bool_decide_eq_false.
  rewrite H. by intros [? ?].
Qed.

Lemma path_exists_Some (fs : filesystem) path content :
  fs !! path = Some content → path_exists fs path = true.
Proof. intros H. unfold path_exists. apply bool_decide_eq_true. by rewrite H. Qed.

(** The text that one call of [save_diary_to_csv] writes. *)
Lemma csv_text_row (r : DiaryRecord) (header : bool) :
  csv_text
    (frame_of_row
       [ (lit "timestamp", timestamp r); (lit "date", date r);
         (lit "student_id", student_id r); (lit "mood", mood r);
         (lit "original_diary", original_diary r);
         (lit "corrected_diary", corrected_diary r);
         (lit "feedback_en", feedback_en r); (lit "summary_ko", summary_ko r) ])
    header
  = (if header then writerow expected_cols else []) ++ writerow (record_fields r).
Proof.
  unfold csv_text. f_equal. simpl. by rewrite app_nil_r.
Qed.

Lemma append_record_absent path (fs : filesystem) r :
  fs !! path = None →
  append_record path fs r
  = <[path := BOM :: writerow expected_cols ++ writerow (record_fields r)]> fs.
Proof.
  intros H. unfold append_record, save_diary_to_csv, to_csv.
  rewrite csv_text_row, (path_exists_None _ _ H). unfold append_text.
  rewrite H. reflexivity.
Qed.

Lemma append_record_present path (fs : filesystem) r old :
  fs !! path = Some old →
  append_record path fs r
  = <[path := old ++ (if bool_decide (old = []) then [BOM] else [])
                  ++ writerow (record_fields r)]> fs.
Proof.
  intros H. unfold append_record, save_diary_to_csv, to_csv.
  rewrite csv_text_row, (path_exists_Some _ _ _ H). unfold append_text.
  rewrite H. reflexivity.
Qed.


Lemma has_header_app (old more : str) :
  has_header old = true → has_header (old ++ more) = true ∧ old ≠ [].
Proof.
  unfold has_header. intros H.
  assert (old ≠ []) as Hne by (by intros ->).
  split; [|done].
  assert (strip_bom (old ++ more) = strip_bom old ++ more) as ->.
  { destruct old as [|c old]; [done|]. simpl. by destruct (c =? BOM). }
  apply starts_with_spec in H as [b Hb]. apply starts_with_spec.
  exists (b ++ more). by rewrite Hb, <- app_assoc.
Qed.

Lemma append_record_ok path (fs : filesystem) r :
  store_ok path fs →
  ∃ content, append_record path fs r !! path = Some content
             ∧ has_header content = true.
Proof.
  unfold store_ok. destruct (fs !! path) as [old|] eqn:E; intros H.
  - rewrite (append_record_present _ _ _ _ E), lookup_insert_eq.
    eexists. split; [done|]. by apply has_header_app.
  - rewrite (append_record_absent _ _ _ E), lookup_insert_eq.
    eexists. split; [done|]. unfold has_header. simpl strip_bom.
    apply starts_with_spec. by eexists.
Qed.

Lemma append_records_ok path rs : ∀ fs : filesystem,
  store_ok path fs → store_ok path (append_records path fs rs).
Proof.
  induction rs as [|r rs IH]; intros fs H; [done|].
  unfold append_records. simpl. apply IH.
  destruct (append_record_ok path fs r H) as [content [Hc Hh]].
  unfold store_ok. by rewrite Hc.
Qed.

End StoreFacts.

(** ** The claims on the append side of the store and on the handler *)

(** C6. Where no store file exists, [load_diary_csv] gives a frame
    without rows whose columns are the eight names, in order. *)
Theorem load_absent (path : string) (fs : filesystem) :
  fs !! path = None →
  ∃ df, load_diary_csv path fs = Ok df
        ∧ nrows df = 0%nat ∧ rows df = [] ∧ labels df = expected_cols.
Proof.
  intros H. unfold load_diary_csv. rewrite (path_exists_None _ _ H). simpl.
  eexists. split; [done|]. done.
Qed.

Lemma load_absent_witness :
  (∅ : filesystem) !! CSV_PATH = None
  ∧ ∃ df, load_diary_csv CSV_PATH ∅ = Ok df
          ∧ nrows df = 0%nat ∧ rows df = [] ∧ labels df = expected_cols.
Proof. split; [done|]. apply (load_absent CSV_PATH ∅). done. Defined.

(** C7. A submission whose diary text is empty or only blanks sends no
    request to the remote model and leaves every file as it was; the
    only thing it does is to show one error message. *)
Theorem submit_blank_diary (gemini : remote_model) (now : str) (form : Form) (w : World) :
  strip (diary_text form) = [] →
  let w' := on_submit gemini now form w in
  requests w' = requests w
  ∧ files w' = files w
  ∧ ∃ msg, screen w' = screen w ++ [st_error msg].
Proof.
  intros H. unfold on_submit. rewrite H. simpl.
  destruct (truthy (api_key form)); simpl; eauto.
Qed.

Lemma submit_blank_diary_witness :
  strip (diary_text form_blank) = []
  ∧ requests (on_submit (λ _ _, Returns None) [] form_blank world0) = [].
Proof.
  split; [reflexivity|].
  exact (proj1 (submit_blank_diary (λ _ _, Returns None) [] form_blank world0 eq_refl)).
Defined.

(** C8. When the call of the remote model raises, the handler shows one
    error message that ends with the text of the exception, and leaves
    every file as it was: no row is appended. *)
Theorem submit_remote_failure (gemini : remote_model) (now : str) (form : Form)
    (w : World) (exc : str) :
  api_key form ≠ [] →
  strip (diary_text form) ≠ [] →
  gemini (api_key form) (prompt_head ++ strip (diary_text form) ++ prompt_tail)
    = Raises exc →
  let w' := on_submit gemini now form w in
  files w' = files w
  ∧ screen w' = screen w ++ [st_error (msg_failed ++ exc)]
  ∧ requests w' = requests w ++ [prompt_head ++ strip (diary_text form) ++ prompt_tail].
Proof.
  intros Hk Hd Hr. unfold on_submit, generate_feedback.
  assert (truthy (api_key form) = true) as -> by (by destruct (api_key form)).
  assert (truthy (strip (diary_text form)) = true) as ->
    by (by destruct (strip (diary_text form))).
  cbv zeta. cbn [negb]. rewrite Hr. done.
Qed.

Lemma submit_remote_failure_witness :
  files (on_submit (λ _ _, Raises (lit "503 UNAVAILABLE")) [] form_ok world0) = ∅.
Proof.
  exact (proj1 (submit_remote_failure (λ _ _, Raises (lit "503 UNAVAILABLE")) []
                  form_ok world0 (lit "503 UNAVAILABLE")
                  ltac:(done) ltac:(done) eq_refl)).
Defined.

(** C9, as the claim states it, fails: a file that exists and is empty
    gets a row and no header, so it is not empty and has no header row. *)
Lemma append_to_empty_file :
  let fs : filesystem := {[ CSV_PATH := [] ]} in
  ∃ content, append_record CSV_PATH fs record0 !! CSV_PATH = Some content
             ∧ content ≠ [] ∧ has_header content = false.
Proof. eexists. split; [vm_compute; reflexivity|]. split; [done|]. vm_compute. done. Qed.

(** C9, amended. [save_diary_to_csv] writes the header row and the row
    when the file is absent; when the file exists it keeps what the file
    holds and puts the row after it, without a header (and with the
    codec's mark first if the file was empty); it touches no other
    file. Consequently a store file that was absent before the first
    append, or that started with the header row, is never empty and
    always starts with the header row. *)
Theorem append_only (path : string) (fs : filesystem) (r : DiaryRecord) :
  (fs !! path = None →
     append_record path fs r !! path
     = Some (BOM :: writerow expected_cols ++ writerow (record_fields r)))
  ∧ (∀ old, fs !! path = Some old →
       append_record path fs r !! path
       = Some (old ++ (if bool_decide (old = []) then [BOM] else [])
                   ++ writerow (record_fields r)))
  ∧ (∀ other, other ≠ path → append_record path fs r !! other = fs !! other)
  ∧ (store_ok path fs →
     ∀ rs content, append_records path fs (r :: rs) !! path = Some content →
                   has_header content = true ∧ content ≠ []).
Proof.
  split; [|split; [|split]].
  - intros H. by rewrite (append_record_absent _ _ _ H), lookup_insert_eq.
  - intros old H. by rewrite (append_record_present _ _ _ _ H), lookup_insert_eq.
  - intros other Hne. destruct (fs !! path) as [old|] eqn:E.
    + by rewrite (append_record_present _ _ _ _ E), lookup_insert_ne.
    + by rewrite (append_record_absent _ _ _ E), lookup_insert_ne.
  - intros Hok rs content Hc.
    pose proof (append_records_ok path (r :: rs) fs Hok) as H.
    unfold store_ok in H. rewrite Hc in H. split; [done|].
    intros ->. done.
Qed.

Lemma append_only_witness :
  (∅ : filesystem) !! CSV_PATH = None
  ∧ append_record CSV_PATH ∅ record0 !! CSV_PATH
    = Some (BOM :: writerow expected_cols ++ writerow (record_fields record0)).
Proof.
  split; [done|].
  exact (proj1 (append_only CSV_PATH ∅ record0) eq_refl).
Defined.

(** ** The claims on the load side of the store *)

Section LoadFacts.

(** Loading a file that [read_csv] reads as the frame [df]. *)
Lemma load_existing (path : string) (fs : filesystem) (content : str) df :
  fs !! path = Some content →
  read_csv content = Ok df →
  load_diary_csv path fs
  = Ok {| nrows := nrows df;
          columns :=
            (λ col, (col, default (replicate (nrows df) (Str [])) (column df col)))
              <$> expected_cols |}.
Proof.
  intros Hf Hr. unfold load_diary_csv.
  rewrite (path_exists_Some _ _ _ Hf), Hf. cbn [negb default from_option id].
  rewrite Hr. cbn [bind].
  apply normalize_spec. by eapply read_csv_labels_NoDup.
Qed.

End LoadFacts.

(** C5, as the claim states it, fails: a store file that exists and
    lacks some of the eight columns need not give a frame. When a line
    of the file has more fields than the header, [read_csv] raises, and
    so does [load_diary_csv]. *)
Lemma load_ragged_file :
  starts_with (writerow [lit "timestamp"; lit "date"]) file_ragged = true
  ∧ load_diary_csv CSV_PATH {[ CSV_PATH := file_ragged ]} = Raise ParserError.
Proof. split; vm_compute; reflexivity. Qed.

(** C5, amended. For a store file that [read_csv] reads and that lacks
    some of the eight columns, [load_diary_csv] gives a frame with the
    eight columns in the canonical order and as many rows as the file
    has; a column the file lacks holds the empty string in every row,
    and a column the file has is as it was read. *)
Theorem load_fills_missing (path : string) (fs : filesystem) (content : str)
    (df : DataFrame) :
  fs !! path = Some content →
  read_csv content = Ok df →
  (∃ col, col ∈ expected_cols ∧ col ∉ labels df) →
  ∃ df', load_diary_csv path fs = Ok df'
         ∧ labels df' = expected_cols
         ∧ nrows df' = nrows df
         ∧ ∀ col, col ∈ expected_cols →
             (col ∉ labels df → column df' col = Some (replicate (nrows df) (Str [])))
             ∧ (col ∈ labels df → column df' col = column df col).
Proof.
  intros Hf Hr _. eexists. split; [by apply (load_existing path fs content df)|].
  split; [apply fmap_pair_fst|]. split; [done|].
  intros col Hcol. unfold column at 1 3. cbn [columns].
  rewrite find_column_fmap, decide_True by done. split.
  - intros Hout. apply find_column_None in Hout. unfold column. by rewrite Hout.
  - intros Hin. apply find_column_is_Some in Hin as [v Hv]. unfold column.
    by rewrite Hv.
Qed.

(** C10. For a store file that [read_csv] reads, the frame that
    [load_diary_csv] gives has the eight canonical columns and no
    other, and the rows of the file: each canonical column of the file
    is kept as it was read, and a column of the file under another
    label is not in the frame. *)
Theorem load_drops_extra (path : string) (fs : filesystem) (content : str)
    (df : DataFrame) :
  fs !! path = Some content →
  read_csv content = Ok df →
  ∃ df', load_diary_csv path fs = Ok df'
         ∧ labels df' = expected_cols
         ∧ length (columns df') = 8%nat
         ∧ nrows df' = nrows df
         ∧ (∀ col, col ∈ expected_cols → col ∈ labels df →
              column df' col = column df col)
         ∧ ∀ col, col ∉ expected_cols → column df' col = None.
Proof.
  intros Hf Hr. eexists. split; [by apply (load_existing path fs content df)|].
  split; [apply fmap_pair_fst|]. split; [done|]. split; [done|]. split.
  - intros col Hcol Hin. unfold column at 1. cbn [columns].
    rewrite find_column_fmap, decide_True by done.
    apply find_column_is_Some in Hin as [v Hv]. unfold column. by rewrite Hv.
  - intros col Hcol. unfold column. cbn [columns].
    by rewrite find_column_fmap, decide_False.
Qed.

(* ===================================================================== *)
(** * Appending a record and loading the store *)
(* ===================================================================== *)

Section RoundTrip.













(** ** What the conversion of a column does to one token *)






End RoundTrip.

(* ===================================================================== *)
(** * Dates in ISO format *)
(* ===================================================================== *)

Section DateFacts.











End DateFacts.

(** ** The claim on the round trip *)




Lemma load_fills_missing_witness :
  ({[ CSV_PATH := file_older_version ]} : filesystem) !! CSV_PATH
    = Some file_older_version
  ∧ ∃ df', load_diary_csv CSV_PATH {[ CSV_PATH := file_older_version ]} = Ok df'
           ∧ labels df' = expected_cols
           ∧ column df' (lit "summary_ko") = Some [Str []].
Proof.
  split; [done|].
  destruct (load_fills_missing CSV_PATH {[ CSV_PATH := file_older_version ]}
              file_older_version frame_older_version)
    as (df' & H1 & H2 & H3 & H4).
  - done.
  - vm_compute. reflexivity.
  - exists (lit "summary_ko"). split.
    + apply (bool_decide_unpack _). vm_compute. exact I.
    + apply (bool_decide_unpack _). vm_compute. exact I.
  - exists df'. split; [done|]. split; [done|].
    apply (H4 (lit "summary_ko")).
    + apply (bool_decide_unpack _). vm_compute. exact I.
    + apply (bool_decide_unpack _). vm_compute. exact I.
Defined.

Lemma load_drops_extra_witness :
  ({[ CSV_PATH := file_extra_column ]} : filesystem) !! CSV_PATH
    = Some file_extra_column
  ∧ ∃ df', load_diary_csv CSV_PATH {[ CSV_PATH := file_extra_column ]} = Ok df'
           ∧ labels df' = expected_cols
           ∧ nrows df' = 1%nat
           ∧ column df' (lit "mood") = Some [Str (lit "Happy")]
           ∧ column df' (lit "teacher_note") = None.
Proof.
  split; [done|].
  destruct (load_drops_extra CSV_PATH {[ CSV_PATH := file_extra_column ]}
              file_extra_column frame_extra_column)
    as (df' & H1 & H2 & _ & H3 & H4 & H5).
  - done.
  - vm_compute. reflexivity.
  - exists df'. split; [exact H1|]. split; [exact H2|]. split; [exact H3|]. split.
    + rewrite H4; [vm_compute; reflexivity| |];
        apply (bool_decide_unpack _); vm_compute; exact I.
    + apply H5. apply (bool_decide_unpack _). vm_compute. exact I.
Defined.

(* ===================================================================== *)
(** * The parser on a reply in the format the prompt asks for *)
(* ===================================================================== *)

Section SectionFacts.

Lemma header_free_spec label (sec tail : str) :
  header_free label sec tail = true →
  ∀ a b, sec = a ++ b → b ≠ [] → match_here re_flags label (b ++ tail) = None.
Proof.
  induction sec as [|c sec IH]; intros H a b Hab Hb.
  - symmetry in Hab. apply app_eq_nil in Hab as [_ ->]. done.
  - cbn [header_free] in H.
    destruct (match_here re_flags label ((c :: sec) ++ tail)) eqn:E; [done|].
    destruct a as [|a0 a]; simpl in Hab.
    + by subst b.
    + injection Hab as -> ->. by apply (IH H a b).
Qed.

Lemma header_free_app label (s1 s2 tail : str) :
  header_free label (s1 ++ s2) tail
  = header_free label s1 (s2 ++ tail) && header_free label s2 tail.
Proof.
  induction s1 as [|c s1 IH]; [done|].
  cbn [header_free app]. rewrite <- app_assoc.
  destruct (match_here re_flags label (c :: s1 ++ s2 ++ tail)); [done|].
  apply IH.
Qed.

(** A greedy repetition before a rest of the pattern that always
    matches takes the longest run. *)
Lemma star_greedy_max {A} a (s : str) (k : str → option A) :
  (∀ s', is_Some (k s')) →
  star_greedy re_flags a s k = k (skip (atom_matches re_flags a) s).
Proof.
  intros Hk. induction s as [|c s IH]; [done|].
  cbn [star_greedy skip]. destruct (atom_matches re_flags a c); [|done].
  rewrite IH. by destruct (Hk (skip (atom_matches re_flags a) s)) as [x ->].
Qed.

Lemma star_greedy_dot_all {A} (s : str) (k : str → option A) r :
  k [] = Some r → star_greedy re_flags Dot s k = Some r.
Proof.
  intros Hk. induction s as [|c s IH]; [done|].
  cbn [star_greedy]. change (atom_matches re_flags Dot c) with true.
  cbv iota. by rewrite IH.
Qed.

Lemma star_lazy_first {A} (pre s' : str) (k : str → option A) r :
  k s' = Some r →
  (∀ p1 p2, pre = p1 ++ p2 → p2 ≠ [] → k (p2 ++ s') = None) →
  star_lazy re_flags Dot (pre ++ s') k = Some r.
Proof.
  intros Hk. induction pre as [|c pre IH]; intros Hmin.
  - destruct s'; simpl; by rewrite Hk.
  - cbn [app star_lazy].
    pose proof (Hmin [] (c :: pre) eq_refl ltac:(done)) as H0.
    cbn [app] in H0. rewrite H0.
    change (atom_matches re_flags Dot c) with true. cbv iota.
    apply IH. intros p1 p2 -> Hne. by apply (Hmin (c :: p1) p2).
Qed.

Lemma skip_isspace (s : str) : skip isspace s = lstrip s.
Proof. induction s as [|c s IH]; [done|]. simpl. by rewrite IH. Qed.

Lemma lstrip_app_clean (sec tail : str) :
  starts_clean tail → lstrip (sec ++ tail) = lstrip sec ++ tail.
Proof.
  intros Ht. induction sec as [|c sec IH]; simpl.
  - by apply lstrip_id.
  - by destruct (isspace c).
Qed.

Lemma strip_lstrip (s : str) : strip (lstrip s) = strip s.
Proof. unfold strip. by rewrite lstrip_idemp. Qed.

(** Whether a pattern without groups matches does not depend on the
    groups captured before. *)
Lemma match_re_caps_irrelevant r : ∀ (s : str) caps caps' k k',
  group_free r = true →
  (∀ s', is_Some (k s' caps) → is_Some (k' s' caps')) →
  is_Some (match_re re_flags r s caps k) → is_Some (match_re re_flags r s caps' k').
Proof.
  induction r as [|a|a|a|r1 IH1 r2 IH2|r1 IH1 r2 IH2|n r IH|r IH|];
    intros s caps caps' k k' Hgf Hk; cbn [match_re].
  - apply Hk.
  - destruct s as [|d s]; [done|].
    destruct (atom_matches re_flags a d); [apply Hk | done].
  - apply star_greedy_mono. intros s'. apply Hk.
  - apply star_lazy_mono. intros s'. apply Hk.
  - cbn [group_free] in Hgf. apply andb_true_iff in Hgf as [G1 G2].
    apply IH1; [done|]. intros s'. by apply IH2.
  - cbn [group_free] in Hgf. apply andb_true_iff in Hgf as [G1 G2].
    destruct (match_re re_flags r1 s caps k) eqn:E.
    + intros _.
      destruct (IH1 s caps caps' k k' G1 Hk (ltac:(by rewrite E))) as [y ->]. done.
    + intros H. destruct (match_re re_flags r1 s caps' k'); [done|].
      by apply (IH2 s caps caps' k k').
  - done.
  - cbn [group_free] in Hgf.
    destruct (match_re re_flags r s caps (λ _ c, Some c)) as [c0|] eqn:E;
      [|by intros [? ?]].
    pose proof E as E'. apply match_re_inv in E' as (s1 & c1 & [= ->] & _ & Hc).
    rewrite (Hc Hgf). intros H.
    assert (is_Some (match_re re_flags r s caps' (λ _ c, Some c))) as [c0' E2].
    { apply (IH s caps caps' (λ _ c, Some c) (λ _ c, Some c) Hgf); [done|].
      by rewrite E. }
    rewrite E2. apply match_re_inv in E2 as (s2 & c2 & [= ->] & _ & Hc2).
    rewrite (Hc2 Hgf). by apply Hk.
  - destruct (at_dollar s); [apply Hk | done].
Qed.

Lemma match_here_none_caps r (s : str) caps :
  group_free r = true →
  match_here re_flags r s = None →
  match_re re_flags r s caps (λ _ c, Some c) = None.
Proof.
  intros Hgf H. destruct (match_re re_flags r s caps (λ _ c, Some c)) eqn:E; [|done].
  assert (is_Some (match_here re_flags r s)) as [? ?]; [|congruence].
  unfold match_here.
  apply (match_re_caps_irrelevant r s caps ∅ (λ _ c, Some c) (λ _ c, Some c) Hgf);
    [done | by rewrite E].
Qed.

Lemma match_here_cat_none r1 r2 (s : str) :
  match_here re_flags r1 s = None → match_here re_flags (Cat r1 r2) s = None.
Proof.
  intros H. destruct (match_here re_flags (Cat r1 r2) s) eqn:E; [|done].
  assert (is_Some (match_here re_flags r1 s)) as [? ?]; [|congruence].
  unfold match_here in *. cbn [match_re] in E.
  eapply match_re_mono; [|by rewrite E]. done.
Qed.

(** The search passes over a stretch in which no match starts. *)
Lemma search_skip r (pre s : str) :
  (∀ a b, pre = a ++ b → b ≠ [] → match_here re_flags r (b ++ s) = None) →
  search re_flags r (pre ++ s) = search re_flags r s.
Proof.
  induction pre as [|c pre IH]; intros H; [done|].
  cbn [app search].
  pose proof (H [] (c :: pre) eq_refl ltac:(done)) as H0.
  cbn [app] in H0. rewrite H0.
  apply IH. intros a b -> Hb. by apply (H (c :: a) b).
Qed.

Lemma search_here r (s : str) m :
  match_here re_flags r s = Some m → search re_flags r s = Some m.
Proof. intros H. destruct s; simpl; by rewrite H. Qed.

Lemma search_after label tail (pre s : str) :
  header_free label pre s = true →
  search re_flags (label ⋅ tail)%re (pre ++ s) = search re_flags (label ⋅ tail)%re s.
Proof.
  intros H. apply search_skip. intros a b Hab Hb.
  apply match_here_cat_none. by apply (header_free_spec label pre s H a b).
Qed.

Lemma at_dollar_long (b tail : str) :
  b ≠ [] → tail ≠ [] → at_dollar (b ++ tail) = false.
Proof. destruct b as [|c [|c' b]]; destruct tail; done. Qed.

(** A section that ends where the lookahead matches first: the group
    is the section without its leading blanks. *)
Lemma lazy_section_exact la (sec tail : str) caps :
  group_free la = true →
  starts_clean tail →
  (∀ caps', is_Some (match_re re_flags (Lookahead la) [] caps' (λ _ c, Some c))) →
  (∀ caps', is_Some (match_re re_flags la tail caps' (λ _ c, Some c))) →
  (∀ a b, sec = a ++ b → b ≠ [] → match_here re_flags la (b ++ tail) = None) →
  ∃ m, match_re re_flags (ws* ⋅ Group 1 (LazyStar Dot) ⋅ Lookahead la)%re
         (sec ++ tail) caps (λ _ c, Some c) = Some m
       ∧ group m 1 = Some (lstrip sec).
Proof.
  intros Hgf Hclean Hend Htail Hfree.
  rewrite match_re_cat. cbn [match_re].
  rewrite star_greedy_max.
  2:{ intros s'. apply star_lazy_dot_total. apply Hend. }
  change (atom_matches re_flags Space) with isspace.
  rewrite skip_isspace, lstrip_app_clean by done.
  destruct (Htail (<[1%nat := lstrip sec]> caps)) as [m Hm].
  pose proof Hm as Hm'. apply match_re_inv in Hm' as (s1 & c1 & [= ->] & _ & Hc).
  rewrite (Hc Hgf) in Hm.
  exists (<[1%nat := lstrip sec]> caps). split; [|apply lookup_insert_eq].
  apply star_lazy_first.
  - rewrite consumed_app, Hm. done.
  - intros p1 p2 Hp Hne.
    destruct (lstrip_suffix sec) as [a0 Ha0].
    rewrite (match_here_none_caps la (p2 ++ tail) _ Hgf); [done|].
    apply (Hfree (a0 ++ p1) p2); [|done].
    by rewrite Ha0 at 1; rewrite Hp, app_assoc.
Qed.

End SectionFacts.

Section SectionParse.

Lemma feedback_not_in_corrected (rest : str) :
  header_free feedback_label CORRECTED_DIARY rest = true.
Proof. vm_compute. reflexivity. Qed.

Lemma summary_not_in_corrected (rest : str) :
  header_free summary_label CORRECTED_DIARY rest = true.
Proof. vm_compute. reflexivity. Qed.

Lemma summary_not_in_feedback (rest : str) :
  header_free summary_label FEEDBACK rest = true.
Proof. vm_compute. reflexivity. Qed.

Lemma consumed_all (s : str) : consumed s [] = s.
Proof. unfold consumed. simpl. rewrite Nat.sub_0_r. apply firstn_all. Qed.

Lemma dollar_fails_inside (b tail : str) caps :
  b ≠ [] → tail ≠ [] →
  match_re re_flags Dollar (b ++ tail) caps (λ _ c, Some c) = None.
Proof. intros Hb Ht. cbn [match_re]. by rewrite at_dollar_long. Qed.

(** The corrected diary of a text that starts with its header. *)
Lemma extract_corrected_section (x rest : str) :
  header_free feedback_label x (FEEDBACK ++ rest) = true →
  header_free summary_label x (FEEDBACK ++ rest) = true →
  extract corrected_pattern (CORRECTED_DIARY ++ x ++ FEEDBACK ++ rest) = strip x.
Proof.
  intros H1 H2. unfold extract.
  destruct (lazy_section_exact (Alt feedback_label (Alt summary_label Dollar))
              x (FEEDBACK ++ rest) ∅) as [m [Hm Hg]].
  - done.
  - reflexivity.
  - done.
  - intros caps'. rewrite match_re_alt, feedback_label_matches. done.
  - intros a b Hab Hb. unfold match_here.
    rewrite match_re_alt.
    pose proof (header_free_spec _ _ _ H1 a b Hab Hb) as E1.
    unfold match_here in E1. rewrite E1.
    rewrite match_re_alt.
    pose proof (header_free_spec _ _ _ H2 a b Hab Hb) as E2.
    unfold match_here in E2. rewrite E2.
    by apply dollar_fails_inside.
  - rewrite (search_here corrected_pattern _ m).
    + rewrite Hg. apply strip_lstrip.
    + unfold match_here, corrected_pattern.
      rewrite match_re_cat, corrected_label_matches. exact Hm.
Qed.

(** The feedback of a text that starts with its header. *)
Lemma extract_feedback_section (y rest : str) :
  header_free summary_label y (KOREAN_SUMMARY ++ rest) = true →
  extract feedback_pattern (FEEDBACK ++ y ++ KOREAN_SUMMARY ++ rest) = strip y.
Proof.
  intros H1. unfold extract.
  destruct (lazy_section_exact (Alt summary_label Dollar)
              y (KOREAN_SUMMARY ++ rest) ∅) as [m [Hm Hg]].
  - done.
  - reflexivity.
  - done.
  - intros caps'. rewrite match_re_alt, summary_label_matches. done.
  - intros a b Hab Hb. unfold match_here.
    rewrite match_re_alt.
    pose proof (header_free_spec _ _ _ H1 a b Hab Hb) as E1.
    unfold match_here in E1. rewrite E1.
    by apply dollar_fails_inside.
  - rewrite (search_here feedback_pattern _ m).
    + rewrite Hg. apply strip_lstrip.
    + unfold match_here, feedback_pattern.
      rewrite match_re_cat, feedback_label_matches. exact Hm.
Qed.

(** The summary of a text that starts with its header: all that
    follows, trimmed. *)
Lemma extract_summary_section (z : str) :
  extract summary_pattern (KOREAN_SUMMARY ++ z) = strip z.
Proof.
  unfold extract.
  rewrite (search_here summary_pattern _ (<[1%nat := lstrip z]> ∅)).
  - unfold group, captures. rewrite lookup_insert_eq. apply strip_lstrip.
  - unfold match_here, summary_pattern.
    rewrite match_re_cat, summary_label_matches, match_re_cat.
    cbn [match_re]. rewrite star_greedy_max.
    2:{ intros s'. by apply star_greedy_dot_total. }
    change (atom_matches re_flags Space) with isspace. rewrite skip_isspace.
    apply star_greedy_dot_all. by rewrite consumed_all.
Qed.

Lemma extract_sections (pre x y z : str) :
  let tail2 := KOREAN_SUMMARY ++ z in
  let tail1 := FEEDBACK ++ y ++ tail2 in
  let tail0 := CORRECTED_DIARY ++ x ++ tail1 in
  header_free corrected_label pre tail0 = true →
  header_free feedback_label pre tail0 = true →
  header_free summary_label pre tail0 = true →
  header_free feedback_label x tail1 = true →
  header_free summary_label x tail1 = true →
  header_free summary_label y tail2 = true →
  extract corrected_pattern (pre ++ tail0) = strip x
  ∧ extract feedback_pattern (pre ++ tail0) = strip y
  ∧ extract summary_pattern (pre ++ tail0) = strip z.
Proof.
  intros tail2 tail1 tail0 Hp1 Hp2 Hp3 Hx1 Hx2 Hy.
  split; [|split].
  - unfold extract at 1. unfold corrected_pattern at 1.
    rewrite (search_after _ _ pre tail0 Hp1).
    by apply extract_corrected_section.
  - unfold extract at 1. unfold feedback_pattern at 1. subst tail0.
    rewrite (app_assoc CORRECTED_DIARY), (app_assoc pre).
    rewrite search_after.
    + by apply extract_feedback_section.
    + rewrite header_free_app, header_free_app.
      rewrite <- !app_assoc. rewrite Hp2, Hx1, feedback_not_in_corrected. done.
  - unfold extract at 1. unfold summary_pattern at 1. subst tail0 tail1.
    rewrite (app_assoc FEEDBACK), (app_assoc x), (app_assoc CORRECTED_DIARY),
      (app_assoc pre).
    rewrite search_after.
    + apply extract_summary_section.
    + rewrite header_free_app, header_free_app, header_free_app, header_free_app.
      rewrite <- !app_assoc.
      rewrite Hp3, Hx2, Hy, summary_not_in_corrected, summary_not_in_feedback.
      done.
Qed.

End SectionParse.

(** ** Further properties of the parser *)

(** X1. A reply in the format the prompt asks for: some text, then
    "Corrected Diary:", a section, "Feedback:", a section, "Korean
    Summary:", a section. When no header pattern matches inside the text
    before the first header or inside one of the first two sections, the
    feedback is the second section trimmed, the summary is the third
    section trimmed, and the corrected diary is the first section
    trimmed, unless the three sections are all blank, in which case it
    is the whole reply trimmed. *)
Theorem parse_sections (pre x y z : str) :
  let tail2 := KOREAN_SUMMARY ++ z in
  let tail1 := FEEDBACK ++ y ++ tail2 in
  let tail0 := CORRECTED_DIARY ++ x ++ tail1 in
  let parsed := parse_feedback_response (pre ++ tail0) in
  header_free corrected_label pre tail0 = true →
  header_free feedback_label pre tail0 = true →
  header_free summary_label pre tail0 = true →
  header_free feedback_label x tail1 = true →
  header_free summary_label x tail1 = true →
  header_free summary_label y tail2 = true →
  get parsed "feedback_en" = strip y
  ∧ get parsed "summary_ko" = strip z
  ∧ (strip x ≠ [] ∨ strip y ≠ [] ∨ strip z ≠ [] →
     get parsed "corrected_diary" = strip x)
  ∧ (strip x = [] → strip y = [] → strip z = [] →
     get parsed "corrected_diary" = strip (pre ++ tail0)).
Proof.
  intros tail2 tail1 tail0 parsed Hp1 Hp2 Hp3 Hx1 Hx2 Hy.
  destruct (extract_sections pre x y z Hp1 Hp2 Hp3 Hx1 Hx2 Hy) as (E1 & E2 & E3).
  destruct (parse_fields (pre ++ tail0)) as (F1 & F2 & F3).
  subst parsed. fold tail2 tail1 tail0 in E1, E2, E3.
  rewrite F1, F2, F3, E2, E3. unfold all_empty. rewrite E1, E2, E3.
  split; [done|]. split; [done|]. split.
  - intros H. destruct (strip x), (strip y), (strip z); simpl; try done.
    by destruct H as [?|[?|?]].
  - by intros -> -> ->.
Qed.

Lemma parse_sections_witness :
  let reply :=
    (lit "Sure! Here is my answer." ++ [LF])
      ++ CORRECTED_DIARY ++ (lit " I am fine." ++ [LF])
      ++ FEEDBACK ++ (lit " Good job: keep writing!" ++ [LF])
      ++ KOREAN_SUMMARY ++ lit " 좋아요." in
  get (parse_feedback_response reply) "corrected_diary" = lit "I am fine."
  ∧ get (parse_feedback_response reply) "feedback_en" = lit "Good job: keep writing!"
  ∧ get (parse_feedback_response reply) "summary_ko" = lit "좋아요.".
Proof.
  destruct (parse_sections (lit "Sure! Here is my answer." ++ [LF])
              (lit " I am fine." ++ [LF]) (lit " Good job: keep writing!" ++ [LF])
              (lit " 좋아요."))
    as (H2 & H3 & H1 & _); try (vm_compute; reflexivity).
  split; [|split].
  - rewrite H1; [vm_compute; reflexivity|]. left. vm_compute. discriminate.
  - rewrite H2. vm_compute. reflexivity.
  - rewrite H3. vm_compute. reflexivity.
Defined.

Section SubstringFacts.

Lemma contains_suffix (g s1 s : str) :
  s1 `suffix_of` s → contains g s1 = true → contains g s = true.
Proof.
  intros [p ->] H. apply contains_spec in H as [a [b ->]].
  apply contains_spec. exists (p ++ a), b. by rewrite <- app_assoc.
Qed.

Lemma contains_consumed (s s' : str) : contains (consumed s s') s = true.
Proof.
  apply contains_spec. exists [], (drop (length s - length s') s).
  unfold consumed. simpl. by rewrite take_drop.
Qed.

(** Every group of a match is a piece of the text the match ran over,
    if it was not captured before. *)
Lemma match_re_groups r : ∀ (s : str) caps k c,
  match_re re_flags r s caps k = Some c →
  ∃ s' caps', k s' caps' = Some c ∧ s' `suffix_of` s
              ∧ ∀ n g, caps' !! n = Some g →
                       caps !! n = Some g ∨ contains g s = true.
Proof.
  induction r as [|a|a|a|r1 IH1 r2 IH2|r1 IH1 r2 IH2|n r IH|r IH|];
    intros s caps k c; cbn [match_re].
  - intros H. exists s, caps. split; [done|]. split; [done|]. by left.
  - destruct s as [|d s]; [done|]. destruct (atom_matches re_flags a d); [|done].
    intros H. exists s, caps. split; [done|]. split; [by apply suffix_cons_r|].
    by left.
  - intros H. apply star_greedy_inv in H as [s' [Hk Hs]].
    exists s', caps. split; [done|]. split; [done|]. by left.
  - intros H. apply star_lazy_inv in H as [pre [s' [-> [Hk _]]]].
    exists s', caps. split; [done|]. split; [by apply suffix_app_r|]. by left.
  - intros H. apply IH1 in H as (s1 & caps1 & H & Hs1 & Hc1).
    apply IH2 in H as (s2 & caps2 & H & Hs2 & Hc2).
    exists s2, caps2. split; [done|]. split; [by etrans|].
    intros m g Hg. destruct (Hc2 m g Hg) as [Hg1|Hg1].
    + by apply Hc1.
    + right. by apply (contains_suffix g s1 s).
  - destruct (match_re re_flags r1 s caps k) eqn:E.
    + intros [= ->]. by apply IH1 in E.
    + intros H. by apply IH2 in H.
  - intros H. apply IH in H as (s1 & caps1 & H & Hs1 & Hc1).
    exists s1, (<[n := consumed s s1]> caps1). split; [done|]. split; [done|].
    intros m g. unfold captures in *. destruct (decide (n = m)) as [->|Hne].
    + rewrite lookup_insert_eq. intros [= <-]. right. apply contains_consumed.
    + rewrite lookup_insert_ne by done. apply Hc1.
  - destruct (match_re re_flags r s caps (λ _ c, Some c)) as [c0|] eqn:E; [|done].
    intros H. apply IH in E as (s1 & caps1 & [= ->] & Hs1 & Hc1).
    exists s, c0. split; [done|]. split; [done|]. exact Hc1.
  - destruct (at_dollar s); [|done]. intros H.
    exists s, caps. split; [done|]. split; [done|]. by left.
Qed.

Lemma contains_nil (s : str) : contains [] s = true.
Proof. by destruct s. Qed.

(** What a pattern extracts is a piece of the text. *)
Lemma extract_contained pattern (text : str) :
  contains (extract pattern text) text = true.
Proof.
  unfold extract. destruct (search re_flags pattern text) as [m|] eqn:E;
    [|apply contains_nil].
  apply search_inv in E as (s0 & Hs0 & E). unfold match_here in E.
  apply match_re_groups in E as (s1 & caps1 & [= ->] & _ & Hc).
  unfold group. destruct (m !! 1%nat) as [g|] eqn:Eg; simpl.
  - destruct (Hc 1%nat g Eg) as [Hg|Hg];
      [unfold captures in *; by rewrite lookup_empty in Hg|].
    apply (contains_suffix _ s0 text Hs0).
    apply contains_spec in Hg as [a [b ->]].
    destruct (strip_infix g) as [a' [b' Hg]].
    apply contains_spec. exists (a ++ a'), (b' ++ b).
    rewrite Hg at 1. by rewrite <- !app_assoc.
  - apply contains_nil.
Qed.

Lemma lstrip_nil_iff (s : str) :
  lstrip s = [] ↔ Forall (λ c, isspace c = true) s.
Proof.
  induction s as [|c s IH]; simpl.
  - split; [constructor | done].
  - destruct (isspace c) eqn:E.
    + rewrite IH. split; [by constructor | by intros [_ ?]%Forall_cons].
    + split; [done | intros [? _]%Forall_cons; congruence].
Qed.

(** A string is blank when trimming leaves nothing of it. *)
Lemma strip_nil_iff (s : str) :
  strip s = [] ↔ Forall (λ c, isspace c = true) s.
Proof.
  split.
  - unfold strip, rstrip. intros H.
    assert (lstrip (rev (lstrip s)) = []) as H1.
    { destruct (lstrip (rev (lstrip s))); [done|].
      simpl in H. by destruct (rev l). }
    apply lstrip_nil_iff, Forall_rev in H1. rewrite rev_involutive in H1.
    apply lstrip_nil_iff.
    pose proof (lstrip_clean s) as Hc.
    destruct (lstrip s) as [|c t]; [done|].
    apply Forall_cons in H1 as [H1 _]. simpl in Hc. congruence.
  - intros H. apply lstrip_nil_iff in H. unfold strip. by rewrite H.
Qed.

Lemma extract_blank pattern (text : str) :
  strip text = [] → extract pattern text = [].
Proof.
  intros H. apply strip_nil_iff in H.
  pose proof (extract_contained pattern text) as Hc.
  apply contains_spec in Hc as [a [b Hab]]. rewrite Hab in H.
  apply Forall_app in H as [_ H]. apply Forall_app in H as [H _].
  apply strip_nil_iff in H. by rewrite extract_trimmed in H.
Qed.

End SubstringFacts.

(** X2. The parser never invents text: each of the three fields it
    returns is a piece of the text it was given. *)
Theorem parse_fields_from_text (text : str) :
  let parsed := parse_feedback_response text in
  contains (get parsed "corrected_diary") text = true
  ∧ contains (get parsed "feedback_en") text = true
  ∧ contains (get parsed "summary_ko") text = true.
Proof.
  intros parsed. subst parsed.
  destruct (parse_fields text) as (F1 & F2 & F3). rewrite F1, F2, F3.
  split; [|split; apply extract_contained].
  destruct (all_empty text); [|apply extract_contained].
  destruct (strip_infix text) as [a [b Hab]]. apply contains_spec. by exists a, b.
Qed.

(** X3. Nothing of a reply is dropped without trace: the three returned
    fields are all empty exactly when the reply is blank. *)
Theorem parse_empty_iff_blank (text : str) :
  let parsed := parse_feedback_response text in
  (get parsed "corrected_diary" = []
   ∧ get parsed "feedback_en" = []
   ∧ get parsed "summary_ko" = [])
  ↔ strip text = [].
Proof.
  intros parsed. subst parsed.
  destruct (parse_fields text) as (F1 & F2 & F3). rewrite F1, F2, F3.
  unfold all_empty. split.
  - intros (H1 & H2 & H3). rewrite H2, H3 in H1. simpl in H1.
    destruct (extract corrected_pattern text); simpl in H1; done.
  - intros H. rewrite !(extract_blank _ text H). simpl. done.
Qed.

(* ===================================================================== *)
(** * Further facts about the submit handler *)
(* ===================================================================== *)

Section HandlerFacts.

Lemma truthy_true (s : str) : s ≠ [] → truthy s = true.
Proof. by destruct s. Qed.

Lemma truthy_false (s : str) : truthy s = false → s = [].
Proof. by destruct s. Qed.

(** The handler when both guards pass, the remote model answers and
    the store can be written. *)
Lemma on_submit_returns (gemini : remote_model) (now : str) (form : Form)
    (w : World) (text : option str) :
  api_key form ≠ [] →
  strip (diary_text form) ≠ [] →
  gemini (api_key form) (prompt_head ++ strip (diary_text form) ++ prompt_tail)
    = Returns text →
  write_error w = None →
  let w' := on_submit gemini now form w in
  let parsed := parse_feedback_response (strip (text_or_empty text)) in
  files w' = append_record CSV_PATH (files w) (submitted_record now form parsed)
  ∧ requests w'
    = requests w ++ [prompt_head ++ strip (diary_text form) ++ prompt_tail]
  ∧ ∃ shown, screen w'
             = screen w
               ++ st_success (lit "Saved successfully! 저장이 완료되었습니다.") :: shown.
Proof.
  intros Hk Hd Hr Hw w' parsed. subst w' parsed.
  unfold on_submit, generate_feedback.
  rewrite (truthy_true _ Hk), (truthy_true _ Hd).
  cbv zeta. cbn [negb]. rewrite Hr. cbv beta iota zeta.
  unfold save_in_world. cbn [write_error]. rewrite Hw.
  unfold show. cbn [files requests screen].
  split; [|split; [done | by eexists]].
  unfold append_record, submitted_record, dict_get.
  cbn [timestamp date student_id mood original_diary corrected_diary
       feedback_en summary_ko].
  by rewrite !lookup_insert_ne.
Qed.

(** The handler when both guards pass and the remote model answers,
    but the store cannot be written: the exception of [to_csv] is shown
    like one of the remote model. *)
Lemma on_submit_write_fails (gemini : remote_model) (now : str) (form : Form)
    (w : World) (text : option str) (exc : str) :
  api_key form ≠ [] →
  strip (diary_text form) ≠ [] →
  gemini (api_key form) (prompt_head ++ strip (diary_text form) ++ prompt_tail)
    = Returns text →
  write_error w = Some exc →
  let w' := on_submit gemini now form w in
  files w' = files w
  ∧ requests w'
    = requests w ++ [prompt_head ++ strip (diary_text form) ++ prompt_tail]
  ∧ screen w' = screen w ++ [st_error (msg_failed ++ exc)].
Proof.
  intros Hk Hd Hr Hw w'. subst w'. unfold on_submit, generate_feedback.
  rewrite (truthy_true _ Hk), (truthy_true _ Hd).
  cbv zeta. cbn [negb]. rewrite Hr. cbv beta iota zeta.
  unfold save_in_world. cbn [write_error]. rewrite Hw.
  unfold show. cbn [files requests screen]. done.
Qed.

(** The handler when a guard fails, the remote model raises or the
    store cannot be written: no file is touched. *)
Lemma on_submit_no_write (gemini : remote_model) (now : str) (form : Form)
    (w : World) :
  (api_key form = [] ∨ strip (diary_text form) = []
   ∨ (∃ exc, gemini (api_key form)
               (prompt_head ++ strip (diary_text form) ++ prompt_tail) = Raises exc)
   ∨ (∃ exc, write_error w = Some exc)) →
  let w' := on_submit gemini now form w in
  files w' = files w
  ∧ (∃ msg, screen w' = screen w ++ [st_error msg])
  ∧ ∃ sent, requests w' = requests w ++ sent ∧ (length sent ≤ 1)%nat.
Proof.
  intros H w'. subst w'. unfold on_submit, generate_feedback.
  destruct (truthy (api_key form)) eqn:Ek; cbn [negb].
  2:{ split; [done|]. split; [by eexists|]. exists [].
      split; [by rewrite app_nil_r | simpl; lia]. }
  destruct (truthy (strip (diary_text form))) eqn:Ed; cbn [negb].
  2:{ split; [done|]. split; [by eexists|]. exists [].
      split; [by rewrite app_nil_r | simpl; lia]. }
  cbv zeta.
  destruct (gemini (api_key form)
              (prompt_head ++ strip (diary_text form) ++ prompt_tail))
    as [text|exc0] eqn:Eg.
  2:{ cbv beta iota. unfold show. cbn [files requests screen].
      split; [done|]. split; [by eexists|]. eexists. split; [done|]. simpl. lia. }
  destruct H as [H|[H|[[exc H]|[exc H]]]].
  - rewrite H in Ek. done.
  - rewrite H in Ed. done.
  - congruence.
  - cbv beta iota zeta. unfold save_in_world. cbn [write_error]. rewrite H.
    unfold show. cbn [files requests screen].
    split; [done|]. split; [by eexists|]. eexists. split; [done|]. simpl. lia.
Qed.

(** A submission either writes or does not. *)
Lemma on_submit_outcome (gemini : remote_model) (form : Form) (w : World) :
  (api_key form = [] ∨ strip (diary_text form) = []
   ∨ (∃ exc, gemini (api_key form)
               (prompt_head ++ strip (diary_text form) ++ prompt_tail) = Raises exc)
   ∨ (∃ exc, write_error w = Some exc))
  ∨ (api_key form ≠ [] ∧ strip (diary_text form) ≠ []
     ∧ ∃ text, gemini (api_key form)
                 (prompt_head ++ strip (diary_text form) ++ prompt_tail)
               = Returns text
               ∧ write_error w = None).
Proof.
  destruct (api_key form) as [|k0 k] eqn:Ek; [by left; left|].
  destruct (strip (diary_text form)) as [|d0 d] eqn:Ed; [by left; right; left|].
  destruct (gemini (k0 :: k) (prompt_head ++ (d0 :: d) ++ prompt_tail))
    as [text|exc] eqn:Eg.
  - destruct (write_error w) as [exc|] eqn:Ew.
    + left. right. right. right. by exists exc.
    + right. split; [done|]. split; [done|]. by exists text.
  - left. right. right. left. by exists exc.
Qed.

Lemma student_id_valid (form : Form) :
  let sid := or_else (strip (student_input form)) (lit "Anonymous") in
  sid ≠ [] ∧ strip sid = sid.
Proof.
  unfold or_else. destruct (truthy (strip (student_input form))) eqn:E.
  - split; [by destruct (strip (student_input form)) | apply strip_idemp].
  - split; [done | reflexivity].
Qed.

End HandlerFacts.

(** X4. Without an API key the submission is blocked before anything
    else happens, whatever the diary holds: no request is sent, no file
    changes, and the message about the key is shown. *)
Theorem submit_without_key (gemini : remote_model) (now : str) (form : Form) (w : World) :
  api_key form = [] →
  let w' := on_submit gemini now form w in
  requests w' = requests w
  ∧ files w' = files w
  ∧ screen w' = screen w ++ [st_error msg_no_key].
Proof. intros H. unfold on_submit. rewrite H. done. Qed.

(** X5. A submission with a key and a diary, answered by the remote
    model, on a store that can be written, sends one request whose
    prompt holds the trimmed diary between the fixed head and tail,
    appends one row to the store, and shows the success message first. The row holds the time stamp, the
    chosen date in ISO format, the trimmed name (or Anonymous), the
    mood, the trimmed diary, and the three fields parsed from the
    trimmed reply (from the empty text if the reply has none). *)
Theorem submit_success (gemini : remote_model) (now : str) (form : Form)
    (w : World) (text : option str) :
  api_key form ≠ [] →
  strip (diary_text form) ≠ [] →
  gemini (api_key form) (prompt_head ++ strip (diary_text form) ++ prompt_tail)
    = Returns text →
  write_error w = None →
  let w' := on_submit gemini now form w in
  let parsed := parse_feedback_response (strip (text_or_empty text)) in
  files w' = append_record CSV_PATH (files w) (submitted_record now form parsed)
  ∧ requests w'
    = requests w ++ [prompt_head ++ strip (diary_text form) ++ prompt_tail]
  ∧ ∃ shown, screen w'
             = screen w
               ++ st_success (lit "Saved successfully! 저장이 완료되었습니다.") :: shown.
Proof. apply on_submit_returns. Qed.

(** X6. Whatever a submission does, a row it writes is valid: its diary
    is not empty and is trimmed, its student id is not empty and is
    trimmed, and its date is the chosen date in ISO format. *)
Theorem submit_writes_valid_row (gemini : remote_model) (now : str) (form : Form)
    (w : World) :
  let w' := on_submit gemini now form w in
  files w' = files w
  ∨ ∃ r, files w' = append_record CSV_PATH (files w) r
         ∧ original_diary r ≠ [] ∧ strip (original_diary r) = original_diary r
         ∧ student_id r ≠ [] ∧ strip (student_id r) = student_id r
         ∧ date r = isoformat (selected_date form)
         ∧ mood r = mood_choice form.
Proof.
  destruct (on_submit_outcome gemini form w) as [H|(Hk & Hd & text & Hr & Hw)].
  - left. by apply on_submit_no_write.
  - right.
    destruct (on_submit_returns gemini now form w text Hk Hd Hr Hw) as (Hf & _).
    eexists. split; [exact Hf|].
    cbn [original_diary student_id date mood submitted_record].
    split; [done|]. split; [apply strip_idemp|].
    destruct (student_id_valid form) as [H1 H2]. done.
Qed.

(** X7. A submission never rewrites anything: every other file is left
    as it was, what the store file held is still there with at most
    something put after it, at most one request is sent, and something
    is always shown. *)
Theorem submit_append_only (gemini : remote_model) (now : str) (form : Form)
    (w : World) :
  let w' := on_submit gemini now form w in
  (∀ other, other ≠ CSV_PATH → files w' !! other = files w !! other)
  ∧ (∀ old, files w !! CSV_PATH = Some old →
       ∃ more, files w' !! CSV_PATH = Some (old ++ more))
  ∧ (∃ sent, requests w' = requests w ++ sent ∧ (length sent ≤ 1)%nat)
  ∧ (∃ shown, screen w' = screen w ++ shown ∧ shown ≠ []).
Proof.
  destruct (on_submit_outcome gemini form w) as [H|(Hk & Hd & text & Hr & Hw)].
  - destruct (on_submit_no_write gemini now form w H) as (Hf & [msg Hs] & Hq).
    cbv zeta. rewrite Hf. split; [done|]. split.
    + intros old Hold. exists []. by rewrite app_nil_r.
    + split; [done|]. by exists [st_error msg].
  - destruct (on_submit_returns gemini now form w text Hk Hd Hr Hw)
      as (Hf & Hq & [shown Hs]).
    cbv zeta. rewrite Hf. split; [|split; [|split]].
    + intros other Hne. destruct (files w !! CSV_PATH) as [old|] eqn:E.
      * by rewrite (append_record_present _ _ _ _ E), lookup_insert_ne.
      * by rewrite (append_record_absent _ _ _ E), lookup_insert_ne.
    + intros old Hold.
      rewrite (append_record_present _ _ _ _ Hold), lookup_insert_eq. by eexists.
    + eexists. split; [exact Hq|]. simpl. lia.
    + eexists. split; [exact Hs|]. done.
Qed.

(** X14. When the remote model answers but the store cannot be written,
    the exception of the write is caught like one of the remote model:
    the request has been sent, the fixed message is shown followed by
    the text of the exception, and no file is changed. *)
Theorem submit_store_failure (gemini : remote_model) (now : str) (form : Form)
    (w : World) (text : option str) (exc : str) :
  api_key form ≠ [] →
  strip (diary_text form) ≠ [] →
  gemini (api_key form) (prompt_head ++ strip (diary_text form) ++ prompt_tail)
    = Returns text →
  write_error w = Some exc →
  let w' := on_submit gemini now form w in
  files w' = files w
  ∧ requests w'
    = requests w ++ [prompt_head ++ strip (diary_text form) ++ prompt_tail]
  ∧ screen w' = screen w ++ [st_error (msg_failed ++ exc)].
Proof. apply on_submit_write_fails. Qed.

Lemma submit_store_failure_witness :
  files (on_submit gemini_fixed (lit "2024-05-01T10:00:00") form_ok world_locked) = ∅
  ∧ screen (on_submit gemini_fixed (lit "2024-05-01T10:00:00") form_ok world_locked)
    = [st_error (msg_failed ++ lit "[Errno 13] Permission denied: 'diary_logs.csv'")].
Proof.
  destruct (submit_store_failure gemini_fixed (lit "2024-05-01T10:00:00") form_ok
              world_locked _ _ ltac:(done) ltac:(done) eq_refl eq_refl)
    as (H1 & _ & H2).
  split; [exact H1 | exact H2].
Defined.

Lemma submit_without_key_witness :
  api_key form_no_key = []
  ∧ files (on_submit gemini_fixed [] form_no_key world0) = ∅.
Proof.
  split; [reflexivity|].
  destruct (submit_without_key gemini_fixed [] form_no_key world0 eq_refl)
    as (_ & H & _).
  exact H.
Defined.

Lemma submit_success_witness :
  ∃ content,
    files (on_submit gemini_fixed (lit "2024-05-01T10:00:00") form_ok world0)
      !! CSV_PATH = Some content
    ∧ has_header content = true.
Proof.
  destruct (submit_success gemini_fixed (lit "2024-05-01T10:00:00") form_ok world0 _
              ltac:(done) ltac:(done) eq_refl eq_refl) as (H & _).
  rewrite H. eexists. split; [vm_compute; reflexivity|]. vm_compute. reflexivity.
Defined.

(* ===================================================================== *)
(** * Further facts about the store *)
(* ===================================================================== *)

Section StoreRows.


End StoreRows.





Section FrameShape.

(** Every column of a frame read from a file has one cell for each row. *)
Lemma read_csv_rectangular (content : str) df :
  read_csv content = Ok df →
  Forall (λ lc : list N * list cell, length lc.2 = nrows df) (columns df).
Proof.
  intros (header & data & _ & H)%read_csv_Ok_inv. revert H.
  unfold build_frame. destruct (existsb _ _); [done|]. intros [= <-].
  cbn [nrows columns]. apply Forall_lookup. intros j lc.
  rewrite list_lookup_imap.
  destruct (label_columns header !! j) as [name|]; [|done]. simpl.
  intros [= <-]. simpl. unfold convert_column. by rewrite !length_fmap.
Qed.

Lemma find_column_elem (cs : list (list N * list cell)) (col : str) v :
  find_column cs col = Some v → (col, v) ∈ cs.
Proof.
  induction cs as [|[c v'] cs IH]; [done|].
  rewrite find_column_cons. destruct (decide (c = col)) as [->|Hne].
  - intros [= ->]. by left.
  - intros H. right. by apply IH.
Qed.

(** The frame that [load_diary_csv] makes of a file has a cell in every
    column for every row. *)
Lemma load_existing_rows (path : string) (fs : filesystem) (content : str) df0 df i :
  fs !! path = Some content →
  read_csv content = Ok df0 →
  load_diary_csv path fs = Ok df →
  (i < nrows df)%nat →
  ∃ cells, iloc df i = Some cells ∧ length cells = 8%nat.
Proof.
  intros Hf Hr Hload Hi.
  rewrite (load_existing path fs content df0 Hf Hr) in Hload.
  injection Hload as <-. cbn [nrows] in Hi.
  pose proof (read_csv_rectangular content df0 Hr) as Hrect.
  assert (is_Some (iloc
            {| nrows := nrows df0;
               columns :=
                 (λ col, (col, default (replicate (nrows df0) (Str []))
                                 (column df0 col))) <$> expected_cols |} i))
    as [cells Hcells].
  { unfold iloc. cbn [columns]. apply mapM_is_Some. apply Forall_fmap.
    apply Forall_forall. intros col _. simpl. apply lookup_lt_is_Some.
    destruct (column df0 col) as [v|] eqn:E; simpl.
    - apply find_column_elem in E. rewrite Forall_forall in Hrect.
      pose proof (Hrect _ E) as Hl. cbn [snd] in Hl. by rewrite Hl.
    - by rewrite length_replicate. }
  exists cells. split; [done|].
  unfold iloc in Hcells. apply length_mapM in Hcells. cbn [columns] in Hcells.
  by rewrite <- Hcells, length_fmap.
Qed.

(** A file that holds nothing but line feeds has no line to read. *)
Lemma run_blank (content : str) :
  Forall (λ c, c = LF) content → tokenizer_run content = tokenizer_init.
Proof.
  intros H. unfold tokenizer_run.
  induction H as [|c content -> _ IH]; [done|]. done.
Qed.

Lemma line_feeds_no_nul (content : str) :
  Forall (λ c, c = LF) content → holds NUL content = false.
Proof.
  intros H. induction H as [|c content -> _ IH]; [done|].
  by rewrite holds_cons, IH.
Qed.

Lemma blank_no_nul (content : str) :
  Forall (λ c, c = LF) (strip_bom content) → holds NUL content = false.
Proof.
  destruct content as [|c content]; [done|]. unfold strip_bom.
  destruct (c =? BOM) eqn:E.
  - apply N.eqb_eq in E as ->. intros H. rewrite holds_cons.
    by rewrite (line_feeds_no_nul content H).
  - apply line_feeds_no_nul.
Qed.



End FrameShape.

(** X10. Whatever frame [load_diary_csv] returns has the eight columns in
    the canonical order and is rectangular: each of its rows has
    exactly eight cells. *)
Theorem load_rectangular (path : string) (fs : filesystem) (df : DataFrame) :
  load_diary_csv path fs = Ok df →
  labels df = expected_cols
  ∧ ∀ i, (i < nrows df)%nat → ∃ cells, iloc df i = Some cells ∧ length cells = 8%nat.
Proof.
  intros Hload. destruct (fs !! path) as [content|] eqn:Hf.
  - destruct (read_csv content) as [df0|e|] eqn:Hr.
    + split.
      * rewrite (load_existing path fs content df0 Hf Hr) in Hload.
        injection Hload as <-. reflexivity.
      * intros i Hi. by apply (load_existing_rows path fs content df0 df i).
    + unfold load_diary_csv in Hload.
      rewrite (path_exists_Some _ _ _ Hf), Hf in Hload.
      cbn [negb default from_option id] in Hload. rewrite Hr in Hload. done.
    + unfold load_diary_csv in Hload.
      rewrite (path_exists_Some _ _ _ Hf), Hf in Hload.
      cbn [negb default from_option id] in Hload. rewrite Hr in Hload. done.
  - unfold load_diary_csv in Hload. rewrite (path_exists_None _ _ Hf) in Hload.
    cbn [negb] in Hload. injection Hload as <-. split; [done|].
    intros i Hi. simpl in Hi. lia.
Qed.

Lemma load_rectangular_witness :
  ∃ df cells,
    load_diary_csv CSV_PATH {[ CSV_PATH := file_older_version ]} = Ok df
    ∧ iloc df 0 = Some cells ∧ length cells = 8%nat.
Proof.
  assert (∃ df, load_diary_csv CSV_PATH {[ CSV_PATH := file_older_version ]} = Ok df)
    as [df Hdf] by (eexists; vm_compute; reflexivity).
  destruct (load_rectangular CSV_PATH {[ CSV_PATH := file_older_version ]} df Hdf)
    as [_ H].
  destruct (H 0%nat) as (cells & H1 & H2).
  { revert Hdf. vm_compute. intros [= <-]. vm_compute. lia. }
  exists df, cells. split; [exact Hdf | split; [exact H1 | exact H2]].
Defined.

(** X11. A store file that exists but holds nothing, or nothing but
    empty lines, cannot be loaded: [read_csv] finds no header and
    [load_diary_csv] raises EmptyDataError. The early return for a
    missing file does not cover it. *)
Theorem load_blank_file (path : string) (fs : filesystem) (content : str) :
  fs !! path = Some content →
  Forall (λ c, c = LF) (strip_bom content) →
  load_diary_csv path fs = Raise EmptyDataError.
Proof.
  intros Hf Hblank. unfold load_diary_csv.
  rewrite (path_exists_Some _ _ _ Hf), Hf. cbn [negb default from_option id].
  rewrite read_csv_modelled.
  - unfold tokenize. by rewrite (run_blank _ Hblank).
  - by apply blank_no_nul.
  - by rewrite (run_blank _ Hblank).
Qed.

Lemma load_blank_file_witness :
  ({[ CSV_PATH := [] ]} : filesystem) !! CSV_PATH = Some []
  ∧ load_diary_csv CSV_PATH {[ CSV_PATH := [] ]} = Raise EmptyDataError.
Proof.
  split; [done|].
  apply (load_blank_file CSV_PATH {[ CSV_PATH := [] ]} []); [done | constructor].
Defined.



(* ===================================================================== *)
(** * Sections without a colon hold no header *)
(* ===================================================================== *)

Section ColonFacts.

Lemma lits_inv (w : str) : ∀ (s : str) caps k c,
  match_re re_flags (lits w) s caps k = Some c →
  ∃ l rest, s = l ++ rest ∧ word_matches w l ∧ k rest caps = Some c.
Proof.
  induction w as [|p w IH]; intros s caps k c; cbn [lits match_re].
  - intros H. exists [], s. split; [done|]. split; [constructor | done].
  - destruct s as [|d s]; [done|]. cbn [atom_matches].
    destruct (lit_matches re_flags p d) eqn:E; [|done].
    intros H. apply IH in H as (l & rest & -> & Hl & Hk).
    exists (d :: l), rest. split; [done|]. split; [by constructor | done].
Qed.

Lemma star_space_inv {A} (s : str) (k : str → option A) x :
  star_greedy re_flags Space s k = Some x →
  ∃ ws rest, s = ws ++ rest ∧ Forall (λ c, isspace c = true) ws ∧ k rest = Some x.
Proof.
  induction s as [|c s IH]; cbn [star_greedy].
  - intros H. exists [], []. split; [done|]. split; [constructor | done].
  - cbn [atom_matches]. destruct (isspace c) eqn:E.
    + destruct (star_greedy re_flags Space s k) eqn:E2.
      * intros [= ->]. destruct (IH eq_refl) as (ws & rest & -> & Hws & Hk).
        exists (c :: ws), rest. split; [done|]. split; [by constructor | done].
      * intros H. exists [], (c :: s). split; [done|]. split; [constructor | done].
    + intros H. exists [], (c :: s). split; [done|]. split; [constructor | done].
Qed.

Lemma colon_inv (s : str) caps k c :
  match_re re_flags (lits (lit ":")) s caps k = Some c →
  ∃ rest, s = COLON :: rest ∧ k rest caps = Some c.
Proof.
  change (lit ":") with [COLON]. cbn [lits match_re].
  destruct s as [|d s]; [done|]. cbn [atom_matches].
  change (lit_matches re_flags COLON d) with (d =? COLON).
  destruct (d =? COLON) eqn:E; [|done]. apply N.eqb_eq in E as ->.
  intros H. by exists s.
Qed.

(** A character that matches a letter is no colon and no blank. *)
Lemma lit_matches_letter (p ch : char) :
  is_letter p = true → lit_matches re_flags p ch = true →
  ch ≠ COLON ∧ isspace ch = false.
Proof.
  intros Hp. unfold lit_matches. change (IGNORECASE re_flags) with true.
  fold (is_letter p). rewrite Hp. cbn [andb].
  assert (0x61 ≤ sre_lower p ≤ 0x7A) as Hlo.
  { unfold is_letter, sre_lower, is_ascii_upper, is_ascii_lower in *.
    destruct ((0x41 <=? p) && (p <=? 0x5A)) eqn:E1.
    - apply andb_true_iff in E1 as [H1 H2]. apply N.leb_le in H1, H2. lia.
    - cbn [orb] in Hp. apply andb_true_iff in Hp as [H1 H2].
      apply N.leb_le in H1, H2.
      destruct (p =? 0x130) eqn:E2; [apply N.eqb_eq in E2; lia|].
      destruct (p =? 0x212A) eqn:E3; [apply N.eqb_eq in E3; lia|]. lia. }
  intros H. apply orb_true_iff in H.
  assert ((0x41 ≤ ch ≤ 0x5A) ∨ (0x61 ≤ ch ≤ 0x7A) ∨ ch = 0x130 ∨ ch = 0x212A
          ∨ ch = 0x131 ∨ ch = 0x17F) as Hch.
  { destruct H as [H|H].
    - apply N.eqb_eq in H. rewrite <- H in Hlo. clear H.
      unfold sre_lower, is_ascii_upper in Hlo.
      destruct ((0x41 <=? ch) && (ch <=? 0x5A)) eqn:E1.
      + apply andb_true_iff in E1 as [H1 H2]. apply N.leb_le in H1, H2. lia.
      + destruct (ch =? 0x130) eqn:E2; [apply N.eqb_eq in E2; lia|].
        destruct (ch =? 0x212A) eqn:E3; [apply N.eqb_eq in E3; lia|]. lia.
    - unfold ignorecase_fixes in H. apply orb_true_iff in H.
      destruct H as [H|H]; apply andb_true_iff in H as [_ H];
        apply N.eqb_eq in H; lia. }
  split; [unfold COLON; lia|].
  unfold isspace.
  rewrite !orb_false_iff, !andb_false_iff, !N.eqb_neq, !N.leb_gt. lia.
Qed.

Lemma word_matches_length (w l : str) : word_matches w l → length l = length w.
Proof. intros H. symmetry. by eapply Forall2_length. Qed.

Lemma word_matches_letters (w l : str) :
  forallb is_letter w = true → word_matches w l →
  Forall (λ ch, ch ≠ COLON ∧ isspace ch = false) l.
Proof.
  intros Hw H. induction H as [|p ch w l Hm H IH]; [constructor|].
  cbn [forallb] in Hw. apply andb_true_iff in Hw as [Hp Hw].
  constructor; [by apply lit_matches_letter with p | by apply IH].
Qed.

Lemma blanks_no_colon (ws : str) :
  Forall (λ c, isspace c = true) ws → COLON ∉ ws.
Proof.
  intros H Hin. rewrite Forall_forall in H. by apply H in Hin.
Qed.

Lemma letters_no_colon (l : str) :
  Forall (λ ch, ch ≠ COLON ∧ isspace ch = false) l → COLON ∉ l.
Proof.
  intros H Hin. rewrite Forall_forall in H. by destruct (H _ Hin).
Qed.

(** The text before the first colon is determined. *)
Lemma first_colon (u u' r r' : str) :
  COLON ∉ u → COLON ∉ u' → u ++ COLON :: r = u' ++ COLON :: r' → u = u'.
Proof.
  revert u'. induction u as [|c u IH]; intros u' Hu Hu' H.
  - destruct u' as [|c' u']; [done|]. simpl in H. injection H as <- _.
    exfalso. apply Hu'. by left.
  - destruct u' as [|c' u']; simpl in H.
    + injection H as -> _. exfalso. apply Hu. by left.
    + injection H as -> H. f_equal. apply (IH u'); [| |done].
      * intros ?. apply Hu. by right.
      * intros ?. apply Hu'. by right.
Qed.

(** Blanks at the end of a text that ends with something else: none. *)
Lemma blanks_at_end (m ws t : str) (c : char) :
  Forall (λ c, isspace c = true) ws → isspace c = false →
  m ++ ws = t ++ [c] → ws = [] ∧ m = t ++ [c].
Proof.
  intros Hws Hc H. destruct ws as [|w ws _] using rev_ind.
  - by rewrite app_nil_r in H.
  - rewrite app_assoc in H. apply app_inj_2 in H as [_ Hwc]; [|done].
    injection Hwc as Hwc.
    apply Forall_app in Hws as [_ Hw]. apply Forall_inv in Hw.
    cbv beta in Hw. rewrite Hwc, Hc in Hw. discriminate.
Qed.

(** A header of one word, as in "Feedback:", does not start inside a
    text without colon that is followed by a header at least as long. *)
Lemma one_word_absent (w t : str) (c : char) (b rest : str) :
  forallb is_letter w = true →
  (length w ≤ length (t ++ [c]))%nat →
  isspace c = false → COLON ∉ t ++ [c] →
  b ≠ [] → COLON ∉ b →
  match_here re_flags (lits w ⋅ ws* ⋅ lits (lit ":"))%re
    (b ++ (t ++ [c]) ++ COLON :: rest) = None.
Proof.
  intros Hw Hlen Hc Hcol Hb Hbcol.
  destruct (match_here _ _ _) as [m|] eqn:E; [|done]. exfalso.
  unfold match_here in E. rewrite match_re_cat in E.
  apply lits_inv in E as (l & s1 & Hs & Hl & E).
  rewrite match_re_cat in E. cbn [match_re] in E.
  apply star_space_inv in E as (ws & s2 & -> & Hws & E).
  apply colon_inv in E as (s3 & -> & _).
  pose proof (word_matches_letters w l Hw Hl) as Hletters.
  rewrite (app_assoc b (t ++ [c])), (app_assoc l ws) in Hs.
  apply first_colon in Hs.
  2:{ intros [?|?]%elem_of_app; [done|]. by apply Hcol. }
  2:{ intros [?|?]%elem_of_app.
      - by apply (letters_no_colon l).
      - by apply (blanks_no_colon ws). }
  symmetry in Hs. rewrite (app_assoc b t [c]) in Hs.
  apply blanks_at_end in Hs as [-> Hs]; [|done..].
  apply (f_equal length) in Hs. rewrite (word_matches_length w l Hl) in Hs.
  rewrite <- app_assoc, length_app in Hs.
  destruct b; [done|]. simpl in Hs. lia.
Qed.

Lemma ends_word_inv (T : str) :
  ends_word T = true → ∃ t c, T = t ++ [c] ∧ isspace c = false.
Proof.
  unfold ends_word. destruct (last T) as [c|] eqn:E; [|done].
  apply last_Some in E as [t ->]. intros H. exists t, c.
  split; [done|]. by destruct (isspace c).
Qed.

Lemma word_matchesb_spec (w l : str) :
  word_matches w l → word_matchesb w l = true.
Proof.
  intros H. induction H as [|p c w l Hm H IH]; [done|].
  cbn [word_matchesb]. by rewrite Hm, IH.
Qed.

(** What a match of a header of two words has read when it reaches the
    first colon of the text. *)
Lemma two_word_reach (w1 w2 t : str) (c : char) (b rest : str) m :
  forallb is_letter w1 = true → forallb is_letter w2 = true →
  isspace c = false → COLON ∉ t ++ [c] → COLON ∉ b →
  match_here re_flags (lits w1 ⋅ ws* ⋅ lits w2 ⋅ ws* ⋅ lits (lit ":"))%re
    (b ++ (t ++ [c]) ++ COLON :: rest) = Some m →
  ∃ l1 ws1 l2, l1 ++ ws1 ++ l2 = (b ++ t) ++ [c]
               ∧ word_matches w1 l1
               ∧ Forall (λ c, isspace c = true) ws1
               ∧ word_matches w2 l2.
Proof.
  intros Hw1 Hw2 Hc Hcol Hbcol E.
  unfold match_here in E. rewrite match_re_cat in E.
  apply lits_inv in E as (l1 & s1 & Hs & Hl1 & E).
  rewrite match_re_cat in E. cbn [match_re] in E.
  apply star_space_inv in E as (ws1 & s2 & -> & Hws1 & E).
  apply lits_inv in E as (l2 & s3 & -> & Hl2 & E).
  apply star_space_inv in E as (ws2 & s4 & -> & Hws2 & E).
  apply colon_inv in E as (s5 & -> & _).
  pose proof (word_matches_letters w1 l1 Hw1 Hl1) as Hlet1.
  pose proof (word_matches_letters w2 l2 Hw2 Hl2) as Hlet2.
  assert (b ++ (t ++ [c]) ++ COLON :: rest
          = ((b ++ t) ++ [c]) ++ COLON :: rest) as E1
    by (by rewrite <- !app_assoc).
  assert (l1 ++ ws1 ++ l2 ++ ws2 ++ COLON :: s5
          = ((l1 ++ ws1 ++ l2) ++ ws2) ++ COLON :: s5) as E2
    by (by rewrite <- !app_assoc).
  rewrite E1, E2 in Hs. clear E1 E2.
  apply first_colon in Hs.
  2:{ rewrite <- app_assoc. intros [?|?]%elem_of_app; [done|]. by apply Hcol. }
  2:{ intros [[?|[?|?]%elem_of_app]%elem_of_app|?]%elem_of_app.
      - by apply (letters_no_colon l1).
      - by apply (blanks_no_colon ws1).
      - by apply (letters_no_colon l2).
      - by apply (blanks_no_colon ws2). }
  symmetry in Hs. apply blanks_at_end in Hs as [-> Hs]; [|done..].
  by exists l1, ws1, l2.
Qed.

(** A header of two words does not start inside a text without colon
    that is followed by a header whose end is not its second word. *)
Lemma two_word_absent_tail (w1 w2 T b rest : str) :
  forallb is_letter w1 = true → forallb is_letter w2 = true →
  ends_word T = true → COLON ∉ T → COLON ∉ b →
  (length w2 ≤ length T)%nat →
  word_matchesb w2 (drop (length T - length w2) T) = false →
  match_here re_flags (lits w1 ⋅ ws* ⋅ lits w2 ⋅ ws* ⋅ lits (lit ":"))%re
    (b ++ T ++ COLON :: rest) = None.
Proof.
  intros Hw1 Hw2 HT Hcol Hbcol Hlen Hno.
  destruct (match_here _ _ _) as [m|] eqn:E; [|done]. exfalso.
  destruct (ends_word_inv T HT) as (t & c & HTe & Hc).
  rewrite HTe in E at 1. rewrite HTe in Hcol.
  apply two_word_reach in E as (l1 & ws1 & l2 & Hs & Hl1 & Hws1 & Hl2);
    [|done..].
  rewrite <- app_assoc, <- HTe in Hs.
  rewrite <- (take_drop (length T - length w2) T) in Hs at 1.
  rewrite !app_assoc in Hs.
  apply app_inj_2 in Hs as [_ Hs].
  2:{ rewrite (word_matches_length w2 l2 Hl2), length_drop. lia. }
  subst l2. apply word_matchesb_spec in Hl2. congruence.
Qed.

(** A header of two words does not start inside a text without colon
    that is followed by this very header. *)
Lemma two_word_absent_self (w1 w2 A B : str) (sp : char) (b rest : str) :
  forallb is_letter w1 = true → forallb is_letter w2 = true →
  ends_word A = true → ends_word B = true → isspace sp = true →
  (length w1 ≤ length A)%nat → length B = length w2 →
  COLON ∉ A ++ sp :: B → b ≠ [] → COLON ∉ b →
  match_here re_flags (lits w1 ⋅ ws* ⋅ lits w2 ⋅ ws* ⋅ lits (lit ":"))%re
    (b ++ (A ++ sp :: B) ++ COLON :: rest) = None.
Proof.
  intros Hw1 Hw2 HA HB Hsp Hlen1 Hlen2 Hcol Hb Hbcol.
  destruct (match_here _ _ _) as [m|] eqn:E; [|done]. exfalso.
  destruct (ends_word_inv A HA) as (ta & ca & -> & Hca).
  destruct (ends_word_inv B HB) as (tb & cb & -> & Hcb).
  assert ((ta ++ [ca]) ++ sp :: tb ++ [cb]
          = ((ta ++ [ca]) ++ sp :: tb) ++ [cb]) as E1
    by (by rewrite <- !app_assoc).
  rewrite E1 in E, Hcol.
  apply two_word_reach in E as (l1 & ws1 & l2 & Hs & Hl1 & Hws1 & Hl2);
    [|done..].
  pose proof (word_matches_letters w1 l1 Hw1 Hl1) as Hlet1.
  assert (l1 ++ ws1 ++ l2 = (l1 ++ ws1) ++ l2) as E2 by (by rewrite app_assoc).
  assert ((b ++ (ta ++ [ca]) ++ sp :: tb) ++ [cb]
          = (((b ++ ta) ++ [ca]) ++ [sp]) ++ (tb ++ [cb])) as E3
    by (rewrite <- !app_assoc; reflexivity).
  rewrite E2, E3 in Hs. clear E1 E2 E3.
  apply app_inj_2 in Hs as [Hs _].
  2:{ by rewrite (word_matches_length w2 l2 Hl2). }
  destruct ws1 as [|x ws' _] using rev_ind.
  - rewrite app_nil_r in Hs. subst l1.
    apply Forall_app in Hlet1 as [_ Hlet1]. apply Forall_inv in Hlet1.
    destruct Hlet1 as [_ Hlet1]. rewrite Hsp in Hlet1. discriminate.
  - rewrite app_assoc in Hs. apply app_inj_2 in Hs as [Hs _]; [|done].
    apply Forall_app in Hws1 as [Hws1 _].
    apply blanks_at_end in Hs as [-> Hs]; [|done..].
    apply (f_equal length) in Hs. rewrite (word_matches_length w1 l1 Hl1) in Hs.
    repeat rewrite length_app in Hs. repeat rewrite length_app in Hlen1.
    simpl in Hs, Hlen1. destruct b; [done|]. simpl in Hs. lia.
Qed.

(** The instances for the three headers of the reply format. *)
Lemma corrected_absent_before_corrected (b rest : str) :
  b ≠ [] → COLON ∉ b →
  match_here re_flags corrected_label (b ++ CORRECTED_DIARY ++ rest) = None.
Proof.
  intros Hb Hcol.
  apply (two_word_absent_self (lit "Corrected") (lit "Diary")
           (lit "Corrected") (lit "Diary") 0x20 b rest);
    first [done | vm_compute; lia | apply (bool_decide_unpack _); vm_compute; exact I].
Qed.

Lemma feedback_absent_before_corrected (b rest : str) :
  b ≠ [] → COLON ∉ b →
  match_here re_flags feedback_label (b ++ CORRECTED_DIARY ++ rest) = None.
Proof.
  intros Hb Hcol.
  change (CORRECTED_DIARY ++ rest)
    with ((lit "Corrected Diar" ++ [0x79]) ++ COLON :: rest).
  apply (one_word_absent (lit "Feedback"));
    first [done | vm_compute; lia | apply (bool_decide_unpack _); vm_compute; exact I].
Qed.

Lemma summary_absent_before_corrected (b rest : str) :
  COLON ∉ b →
  match_here re_flags summary_label (b ++ CORRECTED_DIARY ++ rest) = None.
Proof.
  intros Hcol.
  apply (two_word_absent_tail (lit "Korean") (lit "Summary")
           (lit "Corrected Diary") b rest);
    first [done | vm_compute; lia | apply (bool_decide_unpack _); vm_compute; exact I].
Qed.

Lemma feedback_absent_before_feedback (b rest : str) :
  b ≠ [] → COLON ∉ b →
  match_here re_flags feedback_label (b ++ FEEDBACK ++ rest) = None.
Proof.
  intros Hb Hcol.
  change (FEEDBACK ++ rest) with ((lit "Feedbac" ++ [0x6B]) ++ COLON :: rest).
  apply (one_word_absent (lit "Feedback"));
    first [done | vm_compute; lia | apply (bool_decide_unpack _); vm_compute; exact I].
Qed.

Lemma summary_absent_before_feedback (b rest : str) :
  COLON ∉ b →
  match_here re_flags summary_label (b ++ FEEDBACK ++ rest) = None.
Proof.
  intros Hcol.
  apply (two_word_absent_tail (lit "Korean") (lit "Summary")
           (lit "Feedback") b rest);
    first [done | vm_compute; lia | apply (bool_decide_unpack _); vm_compute; exact I].
Qed.

Lemma summary_absent_before_summary (b rest : str) :
  b ≠ [] → COLON ∉ b →
  match_here re_flags summary_label (b ++ KOREAN_SUMMARY ++ rest) = None.
Proof.
  intros Hb Hcol.
  apply (two_word_absent_self (lit "Korean") (lit "Summary")
           (lit "Korean") (lit "Summary") 0x20 b rest);
    first [done | vm_compute; lia | apply (bool_decide_unpack _); vm_compute; exact I].
Qed.

(** [header_free] from its specification. *)
Lemma header_free_intro label (sec tail : str) :
  (∀ a b, sec = a ++ b → b ≠ [] → match_here re_flags label (b ++ tail) = None) →
  header_free label sec tail = true.
Proof.
  induction sec as [|c sec IH]; intros H; [done|].
  cbn [header_free]. rewrite (H [] (c :: sec)); [|done..].
  apply IH. intros a b -> Hb. by apply (H (c :: a) b).
Qed.

Lemma header_free_no_colon label (sec tail : str) :
  COLON ∉ sec →
  (∀ b, b ≠ [] → COLON ∉ b → match_here re_flags label (b ++ tail) = None) →
  header_free label sec tail = true.
Proof.
  intros Hcol H. apply header_free_intro. intros a b -> Hb.
  apply H; [done|]. intros Hin. apply Hcol. apply elem_of_app. by right.
Qed.

End ColonFacts.

(** X13. A reply in the format the prompt asks for, with no colon in
    the text before "Corrected Diary:", in the corrected diary and in
    the feedback (the Korean summary may hold any text): the feedback
    is the second section trimmed, the summary is the third section
    trimmed, and the corrected diary is the first section trimmed,
    unless the three sections are all blank, in which case it is the
    whole reply trimmed. *)
Theorem parse_sections_no_colon (pre x y z : str) :
  let reply := pre ++ CORRECTED_DIARY ++ x ++ FEEDBACK ++ y ++ KOREAN_SUMMARY ++ z in
  let parsed := parse_feedback_response reply in
  COLON ∉ pre → COLON ∉ x → COLON ∉ y →
  get parsed "feedback_en" = strip y
  ∧ get parsed "summary_ko" = strip z
  ∧ (strip x ≠ [] ∨ strip y ≠ [] ∨ strip z ≠ [] →
     get parsed "corrected_diary" = strip x)
  ∧ (strip x = [] → strip y = [] → strip z = [] →
     get parsed "corrected_diary" = strip reply).
Proof.
  intros reply parsed Hpre Hx Hy.
  assert (extract corrected_pattern reply = strip x
          ∧ extract feedback_pattern reply = strip y
          ∧ extract summary_pattern reply = strip z) as (E1 & E2 & E3).
  { apply (extract_sections pre x y z); apply header_free_no_colon; try done.
    - intros b. apply corrected_absent_before_corrected.
    - intros b. apply feedback_absent_before_corrected.
    - intros b _. apply summary_absent_before_corrected.
    - intros b. apply feedback_absent_before_feedback.
    - intros b _. apply summary_absent_before_feedback.
    - intros b. apply summary_absent_before_summary. }
  destruct (parse_fields reply) as (F1 & F2 & F3). subst parsed.
  rewrite F1, F2, F3, E2, E3. unfold all_empty. rewrite E1, E2, E3.
  split; [done|]. split; [done|]. split.
  - intros H. destruct (strip x), (strip y), (strip z); simpl; try done.
    by destruct H as [?|[?|?]].
  - by intros -> -> ->.
Qed.

Lemma parse_sections_no_colon_witness :
  let reply :=
    (lit "Sure, here it is!" ++ [LF])
      ++ CORRECTED_DIARY ++ (lit " I was happy today." ++ [LF])
      ++ FEEDBACK ++ (lit " Use the past tense, as you did." ++ [LF])
      ++ KOREAN_SUMMARY ++ lit " 요약: 과거 시제를 잘 썼어요." in
  get (parse_feedback_response reply) "corrected_diary" = lit "I was happy today."
  ∧ get (parse_feedback_response reply) "feedback_en"
    = lit "Use the past tense, as you did."
  ∧ get (parse_feedback_response reply) "summary_ko"
    = lit "요약: 과거 시제를 잘 썼어요.".
Proof.
  destruct (parse_sections_no_colon (lit "Sure, here it is!" ++ [LF])
              (lit " I was happy today." ++ [LF])
              (lit " Use the past tense, as you did." ++ [LF])
              (lit " 요약: 과거 시제를 잘 썼어요."))
    as (H2 & H3 & H1 & _);
    try (apply (bool_decide_unpack _); vm_compute; exact I).
  split; [|split].
  - rewrite H1; [vm_compute; reflexivity|]. left. vm_compute. discriminate.
  - rewrite H2. vm_compute. reflexivity.
  - rewrite H3. vm_compute. reflexivity.
Defined.
